(** * HMO chatbot and form extraction: retrieval index and schema validator

    A shallow embedding of the data-processing core of the repository:

    - [hmo-chatbot-part2/rag_index.py] and [hmo-chatbot-part2/embed_texts.py]:
      [chunk_text], [build_index_from_dir], [search];
    - [hmo-chatbot-part2/html_to_text.py] and the second [html_to_text] of
      [rag_index.py];
    - [hmo-chatbot-part2/server.py]: [_load_index], [rag_search], [health],
      [require_key], and the text handling of [collect] and [qa];
    - [hmp-OCR-part1/app_streamlit.py]: [deep_keys], [validate_schema], and
      the cleaning and the validation tab of [main];
    - [hmp-OCR-part1/extract_fields.py]: [_strip_code_fences],
      [_extract_text_from_layout], [preview_ocr];
    - [hmp-OCR-part1/modules/pipeline.py]: [clean_json_output].

    Python integers are [Z]. A Python [str] is a sequence of characters: a list
    over any character type where the code only takes [len] and slices
    ([chunk_text]), a [list ascii] (code points below 256) in the text
    pipeline, a [string] for JSON keys and values. A Python list is a [list],
    a [set] a [gset], a dict with fixed keys a record, a JSON object an
    association list in insertion order. A call that may raise or loop
    returns an [outcome]. The collaborators (HTML parser, embeddings service,
    float32 arithmetic, JSON parser, OCR service) are interfaces. *)

From Stdlib Require Import ZArith Lia String Ascii DecimalString Floats Sorted.
From stdpp Require Import base tactics option list numbers strings gmap sorting.

Local Open Scope Z_scope.
Set Warnings "-register-all,-clear-no-such-hyp".

(** ** Python primitives *)

Module Py.

(** Exceptions the modelled code raises, by class. *)
Inductive exn : Type :=
| RuntimeError (msg : string)
| FileNotFoundError (msg : string)
| HTTPException503 (detail : string)
| ValueError
| TypeError
| IndexError.

(** The result of running a call with a bounded number of loop iterations:
    it returns, it raises, or the bound was reached first. *)
Inductive outcome (A : Type) : Type :=
| Returns (a : A)
| Raises (e : exn)
| OutOfFuel.
Arguments Returns {A} a.
Arguments Raises {A} e.
Arguments OutOfFuel {A}.

#[global] Instance outcome_ret : MRet outcome := λ A a, Returns a.

#[global] Instance outcome_bind : MBind outcome := λ A B k m,
  match m with
  | Returns a => k a
  | Raises e => Raises e
  | OutOfFuel => OutOfFuel
  end.

#[global] Instance outcome_fmap : FMap outcome := λ A B f m,
  match m with
  | Returns a => Returns (f a)
  | Raises e => Raises e
  | OutOfFuel => OutOfFuel
  end.

(** A call, given as its outcome for each bound, ends (it returns or it
    raises); it rejects its arguments when it raises. *)
Definition terminates {A} (run : nat → outcome A) : Prop :=
  ∃ fuel, run fuel ≠ OutOfFuel.

Definition rejects {A} (run : nat → outcome A) : Prop :=
  ∃ fuel e, run fuel = Raises e.

(** [len(l)] *)
Definition len {A} (l : list A) : Z := Z.of_nat (length l).

(** A slice bound [i] of a sequence of length [n], as [l[i:]] and [l[:i]]
    read it: a negative bound counts from the end, and every bound is
    clipped to [0, n]. *)
Definition slice_bound (n i : Z) : Z :=
  if i <? 0 then Z.max 0 (i + n) else Z.min i n.

(** [l[a:b]] *)
Definition slice {A} (l : list A) (a b : Z) : list A :=
  let n := len l in
  drop (Z.to_nat (slice_bound n a)) (take (Z.to_nat (slice_bound n b)) l).

(** [l[:k]] *)
Definition slice_to {A} (l : list A) (k : Z) : list A :=
  take (Z.to_nat (slice_bound (len l) k)) l.

(** [l[i]] for [i >= 0]: [IndexError] out of range. *)
Definition item {A} (l : list A) (i : nat) : outcome A :=
  match l !! i with
  | Some x => Returns x
  | None => Raises IndexError
  end.

(** [enumerate(l)] *)
Definition enumerate {A} (l : list A) : list (Z * A) :=
  imap (λ i x, (Z.of_nat i, x)) l.

(** *** [sorted]

    [list.sort] is a stable sort that compares with [<] only; it is modelled
    by the insertion sort its binary-insertion runs perform (under a strict
    weak order on the keys every stable sort returns the same list). *)
Section Sorted.
Context {A K : Type} (lt : K → K → bool) (key : A → K).

(** [x] goes in front of the first element whose key is not smaller. *)
Fixpoint insert_by (x : A) (l : list A) : list A :=
  match l with
  | [] => [x]
  | y :: l' => if lt (key y) (key x) then y :: insert_by x l' else x :: y :: l'
  end.

Fixpoint stable_sort (l : list A) : list A :=
  match l with
  | [] => []
  | x :: l' => insert_by x (stable_sort l')
  end.

(** [sorted(l, key=key)] *)
Definition sorted (l : list A) : list A := stable_sort l.

(** [sorted(l, key=key, reverse=True)]: CPython reverses the list, sorts it
    ascending and reverses the result, which keeps elements with equal keys
    in their original order. *)
Definition sorted_reverse (l : list A) : list A := rev (stable_sort (rev l)).

(** [lt] orders the keys as [<] orders numbers: it is asymmetric and
    transitive, and so is "neither is smaller". *)
Definition strict_weak_order : Prop :=
  (∀ a b, lt a b = true → lt b a = false)
  ∧ (∀ a b c, lt a b = true → lt b c = true → lt a c = true)
  ∧ (∀ a b c, lt a c = true → lt a b = true ∨ lt b c = true).

(** [a] is placed before [b] by an ascending stable sort of a list in which
    [before] relates each element to the later ones: its key is smaller, or
    the keys compare equal and [a] came first. *)
Definition placed_before (before : A → A → Prop) (a b : A) : Prop :=
  lt (key a) (key b) = true ∨ (lt (key b) (key a) = false ∧ before a b).

End Sorted.

(** *** Strings as lists of characters *)

Abbreviation text := (list ascii).

Definition txt (s : string) : text := list_ascii_of_string s.

Definition LF : ascii := ascii_of_nat 10.
Definition CR : ascii := ascii_of_nat 13.

Definition code_in (c : ascii) (lo hi : nat) : bool :=
  (lo <=? nat_of_ascii c)%nat && (nat_of_ascii c <=? hi)%nat.

(** [c.isspace()] for a code point below 256: tab to carriage return, the
    separators 0x1c to 0x1f, space, NEL (0x85) and the no-break space. *)
Definition isspace (c : ascii) : bool :=
  code_in c 9 13 || code_in c 28 32 || code_in c 133 133 || code_in c 160 160.

(** The line boundaries of [str.splitlines] below 256: LF, VT, FF, CR, the
    separators 0x1c to 0x1e and NEL. *)
Definition is_linebreak (c : ascii) : bool :=
  code_in c 10 13 || code_in c 28 30 || code_in c 133 133.

(** [c.isdigit()] for a code point below 256: 0 to 9 and the superscripts
    two, three and one. *)
Definition isdigit_char (c : ascii) : bool :=
  code_in c 48 57 || code_in c 178 179 || code_in c 185 185.

(** [s.isdigit()]: every character is a digit and there is at least one. *)
Definition isdigit (s : string) : bool :=
  match list_ascii_of_string s with
  | [] => false
  | cs => forallb isdigit_char cs
  end.

(** [s.lstrip()] *)
Fixpoint lstrip (s : text) : text :=
  match s with
  | [] => []
  | c :: s' => if isspace c then lstrip s' else s
  end.

(** [s.strip()] *)
Definition strip (s : text) : text := rev (lstrip (rev (lstrip s))).

(** Every character of [l] is white space. *)
Definition all_space (l : text) : Prop := Forall (λ c, isspace c = true) l.

(** [sep.join(parts)] *)
Fixpoint join (sep : text) (parts : list text) : text :=
  match parts with
  | [] => []
  | [p] => p
  | p :: ps => p ++ sep ++ join sep ps
  end.

(** [s.splitlines()]: [cur] is the line being read, [after_cr] says that the
    previous character was a carriage return, whose line feed belongs to the
    same boundary. A last line is kept only when it is not empty. *)
Fixpoint splitlines_go (after_cr : bool) (cur : text) (s : text) : list text :=
  match s with
  | [] => match cur with [] => [] | _ => [cur] end
  | c :: s' =>
      if after_cr && bool_decide (c = LF) then splitlines_go false cur s'
      else if is_linebreak c then cur :: splitlines_go (bool_decide (c = CR)) [] s'
      else splitlines_go false (cur ++ [c]) s'
  end.

Definition splitlines (s : text) : list text := splitlines_go false [] s.

(** A line that is not empty and holds no line boundary. *)
Definition clean (l : text) : Prop :=
  l ≠ [] ∧ Forall (λ c, is_linebreak c = false) l.

(** [re.sub(r"\n{m,}", repl, s)]: [run] counts the line feeds read since the
    last other character; a maximal run of at least [m] is replaced by
    [repl], a shorter one is kept. *)
Definition flush_run (m : nat) (repl : text) (run : nat) : text :=
  if (m <=? run)%nat then repl else replicate run LF.

Fixpoint sub_newlines_go (m : nat) (repl : text) (run : nat) (s : text) : text :=
  match s with
  | [] => flush_run m repl run
  | c :: s' =>
      if bool_decide (c = LF) then sub_newlines_go m repl (S run) s'
      else flush_run m repl run ++ c :: sub_newlines_go m repl 0 s'
  end.

Definition sub_newlines (m : nat) (repl : text) (s : text) : text :=
  sub_newlines_go m repl 0 s.

End Py.

Import Py.

(** ** Chunker: [chunk_text] *)

Module Chunker.
Section Chunker.
Context {char : Type}.

(** The [while] loop of [chunk_text]; [at_end end_ n] is the test of the
    [break]: [end >= len(text)] in rag_index.py, [end == len(text)] in
    embed_texts.py. One unit of fuel is one evaluation of the loop
    condition. *)
Fixpoint chunk_loop (at_end : Z → Z → bool) (fuel : nat) (s : list char)
    (max_chars overlap : Z) (start : Z) (chunks : list (list char))
    : outcome (list (list char)) :=
  match fuel with
  | O => OutOfFuel
  | S fuel' =>
      if start <? len s then
        let end_ := Z.min (len s) (start + max_chars) in
        let chunks := chunks ++ [slice s start end_] in
        if at_end end_ (len s) then Returns chunks
        else chunk_loop at_end fuel' s max_chars overlap
               (Z.max 0 (end_ - overlap)) chunks
      else Returns chunks
  end.

Definition chunk_text_fuel (at_end : Z → Z → bool) (fuel : nat) (s : list char)
    (max_chars overlap : Z) : outcome (list (list char)) :=
  if len s <=? max_chars then Returns [s]
  else chunk_loop at_end fuel s max_chars overlap 0 [].

(** The windows [(start, end)] the loop slices, in the order it appends
    them: the same loop, recording the bounds instead of the slice. *)
Fixpoint window_loop (at_end : Z → Z → bool) (fuel : nat) (n : Z)
    (max_chars overlap : Z) (start : Z) (ws : list (Z * Z))
    : outcome (list (Z * Z)) :=
  match fuel with
  | O => OutOfFuel
  | S fuel' =>
      if start <? n then
        let end_ := Z.min n (start + max_chars) in
        let ws := ws ++ [(start, end_)] in
        if at_end end_ n then Returns ws
        else window_loop at_end fuel' n max_chars overlap
               (Z.max 0 (end_ - overlap)) ws
      else Returns ws
  end.

Definition chunk_windows_fuel (at_end : Z → Z → bool) (fuel : nat) (n : Z)
    (max_chars overlap : Z) : outcome (list (Z * Z)) :=
  if n <=? max_chars then Returns [(0, n)]
  else window_loop at_end fuel n max_chars overlap 0 [].

(** [len(text) + 1] evaluations of the loop condition are enough whenever
    [0 <= overlap < max_chars] (lemma [chunk_text_fuel_windows] below), which the
    default parameters satisfy. *)
Definition default_fuel (s : list char) : nat := S (length s).

(** The chunk of a window. *)
Definition window_slice (s : list char) (w : Z * Z) : list char := slice s w.1 w.2.

(** The windows of a text of length [n] from [start] on, when the loop is
    entered with [start < n]: the last one ends at [n], and a window that
    ends before [n] is full and followed by the windows from
    [end - overlap] on. *)
Inductive chain (n max_chars overlap : Z) : Z → list (Z * Z) → Prop :=
| chain_last start :
    n ≤ start + max_chars → chain n max_chars overlap start [(start, n)]
| chain_step start ws :
    start + max_chars < n →
    chain n max_chars overlap (start + max_chars - overlap) ws →
    chain n max_chars overlap start ((start, start + max_chars) :: ws).

(** The windows of a call on a text of length [n]: one window over a short
    text, a chain from 0 over a long one. *)
Definition windows_of (max_chars overlap : Z) (n : Z) (ws : list (Z * Z)) : Prop :=
  (n ≤ max_chars ∧ ws = [(0, n)])
  ∨ (max_chars < n ∧ chain n max_chars overlap 0 ws).

(** The text read back from its chunks: the first chunk, then every other
    chunk without its first [overlap] characters. *)
Definition unchunk (overlap : Z) (chunks : list (list char)) : list char :=
  match chunks with
  | [] => []
  | c :: cs => c ++ concat (drop (Z.to_nat overlap) <$> cs)
  end.

(** Position [i] lies in one of the windows. *)
Definition covered (ws : list (Z * Z)) (i : Z) : Prop :=
  ∃ w, w ∈ ws ∧ w.1 ≤ i < w.2.

(** The first and the last [n] characters of a chunk. *)
Definition first_chars (n : Z) (c : list char) : list char := take (Z.to_nat n) c.
Definition last_chars (n : Z) (c : list char) : list char :=
  drop (length c - Z.to_nat n) c.

End Chunker.
End Chunker.

Module RagIndexChunk.

(** rag_index.py: [if end >= len(text): break] *)
Definition at_end (end_ n : Z) : bool := n <=? end_.

Definition chunk_text_fuel {char} := @Chunker.chunk_text_fuel char at_end.

Definition chunk_windows_fuel := Chunker.chunk_windows_fuel at_end.

(** [chunk_text(text, max_chars, overlap)] *)
Definition chunk_text {char} (s : list char) (max_chars overlap : Z) :=
  chunk_text_fuel (Chunker.default_fuel s) s max_chars overlap.

(** The defaults of [def chunk_text(text, max_chars=1100, overlap=200)]. *)
Definition default_max_chars : Z := 1100.
Definition default_overlap : Z := 200.

End RagIndexChunk.

Module EmbedTextsChunk.

(** embed_texts.py: [if end == len(text): break] *)
Definition at_end (end_ n : Z) : bool := end_ =? n.

Definition chunk_text_fuel {char} := @Chunker.chunk_text_fuel char at_end.

Definition chunk_windows_fuel := Chunker.chunk_windows_fuel at_end.

(** [chunk_text(text, max_chars, overlap)] *)
Definition chunk_text {char} (s : list char) (max_chars overlap : Z) :=
  chunk_text_fuel (Chunker.default_fuel s) s max_chars overlap.

(** The defaults of [def chunk_text(text, max_chars=1200, overlap=200)]. *)
Definition default_max_chars : Z := 1200.
Definition default_overlap : Z := 200.

End EmbedTextsChunk.

(** ** TextNormalizer: [html_to_text] *)

Module Soup.

(** The tree [BeautifulSoup(html, "lxml")] builds: text nodes, comments and
    tags with their children. The document itself is the tag [[document]]. *)
Inductive node : Type :=
| NavigableString (s : text)
| Comment (s : text)
| Tag (name : string) (contents : list node).

(** The HTML parser is a collaborator. *)
Class HtmlParser := { parse : text → node }.

Definition tag_named (names : list string) (n : node) : bool :=
  match n with
  | Tag name _ => bool_decide (name ∈ names)
  | _ => false
  end.

(** The tags among [n] and its descendants named in [names], in document
    order. *)
Fixpoint matching (names : list string) (n : node) : list node :=
  match n with
  | Tag name cs =>
      (if bool_decide (name ∈ names) then [n] else []) ++ flat_map (matching names) cs
  | _ => []
  end.

(** [tag.find_all(names)]: the descendants of [tag] named in [names]. *)
Definition find_all (names : list string) (n : node) : list node :=
  match n with
  | Tag _ cs => flat_map (matching names) cs
  | _ => []
  end.

(** The text nodes below [n], in document order; comments are not text. *)
Fixpoint strings (n : node) : list text :=
  match n with
  | NavigableString s => [s]
  | Comment _ => []
  | Tag _ cs => flat_map strings cs
  end.

Definition nonempty (s : text) : bool :=
  match s with [] => false | _ => true end.

(** [tag.get_text(sep, strip=True)]: every text node stripped, the empty
    ones dropped, joined with [sep]. *)
Definition get_text (sep : text) (n : node) : text :=
  join sep (List.filter nonempty (map strip (strings n))).

(** [n] after [tag.decompose()] of every tag named in [names]: nothing when
    [n] is such a tag. *)
Fixpoint decompose (names : list string) (n : node) : list node :=
  match n with
  | Tag name cs =>
      if bool_decide (name ∈ names) then []
      else [Tag name (flat_map (decompose names) cs)]
  | _ => [n]
  end.

(** [for tag in soup(names): tag.decompose()] *)
Definition decompose_all (names : list string) (soup : node) : node :=
  match soup with
  | Tag name cs => Tag name (flat_map (decompose names) cs)
  | _ => soup
  end.

(** The loop body over one [table]: a line per row that has cells, the cells'
    texts joined with [" | "]; the lines joined with a line feed, and one more
    line feed. *)
Definition row_cells (tr : node) : list text :=
  map (get_text (txt " ")) (find_all ["th"; "td"]%string tr).

Definition table_rows (table : node) : list text :=
  flat_map (λ tr, match row_cells tr with
                  | [] => []
                  | cells => [join (txt " | ") cells]
                  end)
           (find_all ["tr"%string] table).

Definition table_text (table : node) : text :=
  join [LF] (table_rows table) ++ [LF].

(** [for table in soup.find_all("table"): table.replace_with(...)]: the
    tables are visited in document order, so a table inside another one is
    replaced after its ancestor left the tree, and only the outermost tables
    change the document. *)
Fixpoint replace_tables (n : node) : node :=
  match n with
  | Tag name cs =>
      if bool_decide (name = "table"%string) then NavigableString (table_text n)
      else Tag name (map replace_tables cs)
  | _ => n
  end.

(** [soup.get_text("\n", strip=True)] after the two loops. *)
Definition soup_text (soup : node) : text :=
  get_text [LF]
    (replace_tables (decompose_all ["script"; "style"; "noscript"]%string soup)).

End Soup.

Import Soup.

Module HtmlToText.

(** html_to_text.py: [re.sub(r"\n{2,}", "\n", text)] and return. *)
Definition html_to_text_soup (soup : node) : text :=
  sub_newlines 2 [LF] (soup_text soup).

Definition html_to_text `{HtmlParser} (html : text) : text :=
  html_to_text_soup (parse html).

End HtmlToText.

Module RagIndexText.

(** rag_index.py: [re.sub(r"\n{3,}", "\n\n", text)], then the stripped lines
    that are not empty, joined with a line feed. *)
Definition html_to_text_soup (soup : node) : text :=
  let text := sub_newlines 3 [LF; LF] (soup_text soup) in
  let lines := map strip (List.filter (λ ln, nonempty (strip ln)) (splitlines text)) in
  join [LF] lines.

Definition html_to_text `{HtmlParser} (html : text) : text :=
  html_to_text_soup (parse html).

End RagIndexText.

(** The tree of the markup [<p>a\n \nb</p>]: one text node of three
    lines, the second a single space. *)
Definition blank_line_soup : node :=
  Tag "[document]"
    [Tag "html" [Tag "body" [Tag "p"
       [NavigableString (txt "a" ++ [LF] ++ txt " " ++ [LF] ++ txt "b")]]]].

(** What the specification asks of a normalised text: no two line feeds in a
    row, and no line that is empty once stripped. *)
Definition no_newline_run (s : text) : Prop :=
  ∀ i, ¬ (s !! i = Some LF ∧ s !! S i = Some LF).

Definition no_blank_line (s : text) : Prop :=
  ∀ ln, ln ∈ splitlines s → strip ln ≠ [].

(** The tree of a document that holds one table of text cells, a list of
    cells for each row. *)
Definition cell_node (c : text) : node := Tag "td" [NavigableString c].

Definition row_node (cells : list text) : node := Tag "tr" (map cell_node cells).

Definition table_document (rows : list (list text)) : node :=
  Tag "[document]" [Tag "html" [Tag "body" [Tag "table" (map row_node rows)]]].

(** The text of a cell as it is read: on one line, not empty, no white space
    at its ends. *)
Definition cell_text (c : text) : Prop := clean c ∧ strip c = c.

(** ** VectorIndex: build, load, search *)

Module Index.

(** numpy's float32 arithmetic as far as the code uses it, and [<] on the
    Python floats [tolist()] returns. *)
Class Float32 (F : Type) := {
  f32_inhabited :: Inhabited F;
  (** [np.linalg.norm(v)] of one row *)
  norm : list F → F;
  (** [x / (n + 1e-10)] *)
  div_eps : F → F → F;
  (** the entry of [a @ q] for the row [r] of [a] *)
  dot : list F → list F → F;
  (** [x < y] *)
  flt : F → F → bool;
}.

(** The embeddings service: [client.embeddings.create(model=dep, input=texts)],
    read as [[d.embedding for d in resp.data]]. *)
Class Embeddings (F : Type) := { embed_texts : list text → list (list F) }.

(** [{"source": ..., "chunk_id": ...}] *)
Record meta : Type := Meta { source : string; chunk_id : Z }.

(** [{"vectors": ..., "metas": ..., "chunks": ...}] *)
Record index (F : Type) : Type := Index {
  vectors : list (list F);
  metas : list meta;
  chunks : list text;
}.
Arguments Index {F} _ _ _.
Arguments vectors {F} _.
Arguments metas {F} _.
Arguments chunks {F} _.

(** [{"score": ..., "text": ..., "source": ..., "chunk_id": ...}] *)
Record hit (F : Type) : Type := Hit {
  hit_score : F;
  hit_text : text;
  hit_source : string;
  hit_chunk_id : Z;
}.
Arguments Hit {F} _ _ _ _.
Arguments hit_score {F} _.
Arguments hit_text {F} _.
Arguments hit_source {F} _.
Arguments hit_chunk_id {F} _.

(** A float32 array of one or of two dimensions. *)
Inductive ndarray (F : Type) : Type :=
| Arr1 (v : list F)
| Arr2 (rows : list (list F)).
Arguments Arr1 {F} v.
Arguments Arr2 {F} rows.

(** The persisted index files, by path. *)
Abbreviation store F := (gmap string (index F)).

Section Index.
Context {F : Type} `{!Float32 F} `{!Embeddings F}.

(** [np.array(rows, dtype="float32")] of a list of lists of numbers: the
    empty list is an array of shape (0,), rows of one length make a matrix,
    rows of different lengths raise [ValueError]. *)
Definition np_array (rows : list (list F)) : outcome (ndarray F) :=
  match rows with
  | [] => Returns (Arr1 [])
  | r :: rs =>
      if forallb (λ r', bool_decide (length r' = length r)) rs
      then Returns (Arr2 rows) else Raises ValueError
  end.

(** [v / (np.linalg.norm(v) + 1e-10)] *)
Definition normalize (v : list F) : list F := (λ x, div_eps x (norm v)) <$> v.

(** [arr / (np.linalg.norm(arr, axis=1, keepdims=True) + 1e-10)]: axis 1 of a
    one-dimensional array is out of bounds ([AxisError], a [ValueError]). *)
Definition normalize_rows (arr : ndarray F) : outcome (list (list F)) :=
  match arr with
  | Arr1 _ => Raises ValueError
  | Arr2 rows => Returns (normalize <$> rows)
  end.

(** [(vecs @ q).tolist()], as the list [len] and indexing are applied to. Two
    vectors multiply to a number ([len(sims)] then raises [TypeError]), a
    matrix and a vector to a vector; lengths that do not agree raise
    [ValueError]. *)
Definition similarities (vecs : ndarray F) (q : list F) : outcome (list F) :=
  match vecs with
  | Arr1 v => if bool_decide (length v = length q) then Raises TypeError else Raises ValueError
  | Arr2 rows =>
      if forallb (λ r, bool_decide (length r = length q)) rows
      then Returns ((λ r, dot r q) <$> rows) else Raises ValueError
  end.

(** [sorted(range(len(sims)), key=lambda i: sims[i], reverse=True)[:k]] *)
Definition top_indices (sims : list F) (k : Z) : list nat :=
  slice_to (sorted_reverse flt (λ i, sims !!! i) (seq 0 (length sims))) k.

(** The loop that builds [out]. *)
Definition hits (idx : index F) (sims : list F) (top_idx : list nat)
    : outcome (list (hit F)) :=
  mapM (λ i, t ← item (chunks idx) i;
             m ← item (metas idx) i;
             mret (Hit (sims !!! i) t (source m) (chunk_id m)))
       top_idx.

(** rag_index.py: [load_index] *)
Definition load_index (fs : store F) (index_path : string) : outcome (index F) :=
  match fs !! index_path with
  | Some idx => Returns idx
  | None => Raises (FileNotFoundError ("Index not found: " +:+ index_path))
  end.

(** rag_index.py: [search] *)
Definition search (idx : index F) (query : text) (k : Z) : outcome (list (hit F)) :=
  vecs ← np_array (vectors idx);
  e ← item (embed_texts [query]) 0;
  let q := normalize e in
  sims ← similarities vecs q;
  hits idx sims (top_indices sims k).

(** server.py: the index as [_load_index] returns it, with the renormalised
    matrix under ["_vecs"]. *)
Record loaded : Type := Loaded { data : index F; _vecs : list (list F) }.

(** server.py: [_load_index], on a store of files that [json.loads] reads as
    an index (lists of vectors of numbers, of metas and of chunks). A file
    that is not JSON or lacks a key raises as well; the store holds no such
    file. *)
Definition _load_index (fs : store F) (path : string) : outcome loaded :=
  match fs !! path with
  | None =>
      Raises (RuntimeError ("Index file not found: " +:+ path +:+ ". Run embed_texts.py first."))
  | Some d =>
      vecs ← np_array (vectors d);
      rows ← normalize_rows vecs;
      mret (Loaded d rows)
  end.

(** server.py: [try: INDEX = _load_index(INDEX_PATH) except Exception: INDEX = None] *)
Definition startup_index (fs : store F) (path : string) : option loaded :=
  match _load_index fs path with
  | Returns d => Some d
  | _ => None
  end.

(** server.py: [_embed_query]. The service is the one of the server
    ([model=EMB_DEP]), an instance of its own: the builder of embed_texts.py
    names another deployment by default. *)
Definition _embed_query (q : text) : outcome (list F) :=
  e ← item (embed_texts [q]) 0;
  mret (normalize e).

(** server.py: [rag_search] *)
Definition rag_search (INDEX : option loaded) (q : text) (k : Z)
    : outcome (list (hit F)) :=
  match INDEX with
  | None => Raises (HTTPException503 "Index not loaded")
  | Some idx =>
      qv ← _embed_query q;
      sims ← similarities (Arr2 (_vecs idx)) qv;
      hits (data idx) sims (top_indices sims k)
  end.

(** server.py: [health], as the pair of ["status"] and ["index"]. *)
Definition health (INDEX : option loaded) : string * Z :=
  match INDEX with
  | None => ("degraded"%string, 0)
  | Some idx => ("ok"%string, len (chunks (data idx)))
  end.

(** The index invariant [search] relies on: at least one vector, every
    vector of dimension [d], and as many chunk texts and metadata entries as
    vectors. *)
Definition index_wf (d : nat) (idx : index F) : Prop :=
  vectors idx ≠ []
  ∧ Forall (λ r, length r = d) (vectors idx)
  ∧ length (chunks idx) = length (vectors idx)
  ∧ length (metas idx) = length (vectors idx).

(** The contract of the embeddings service: one vector per text, in order,
    each of dimension [d]. *)
Definition embeds (embed_one : text → list F) (d : nat) : Prop :=
  (∀ ts, embed_texts ts = embed_one <$> ts) ∧ (∀ t, length (embed_one t) = d).

(** The result [h] is the entry at position [i] of the index, with its
    score. *)
Definition hit_of (idx : index F) (sims : list F) (i : nat) (h : hit F) : Prop :=
  hit_score h = sims !!! i
  ∧ chunks idx !! i = Some (hit_text h)
  ∧ metas idx !! i = Some (Meta (hit_source h) (hit_chunk_id h)).

(** What the specification asks of the results [out] of a search for [k]
    entries over the scores [sims]: [min(k, n)] results, each an entry of the
    index with its score, no result with a smaller score than a later one,
    and of two results with equal scores the one at the smaller position
    first. *)
Definition top_k_result (idx : index F) (sims : list F) (k : Z)
    (out : list (hit F)) : Prop :=
  len out = Z.min k (len sims)
  ∧ ∃ top_idx : list nat,
      Forall2 (hit_of idx sims) top_idx out
      ∧ ∀ p q i j, (p < q)%nat → top_idx !! p = Some i → top_idx !! q = Some j →
          flt (sims !!! i) (sims !!! j) = false
          ∧ (flt (sims !!! j) (sims !!! i) = false → (i < j)%nat).

(** The loop over the chunks of one file: one entry of [metas] and one of
    [all_chunks] per chunk. *)
Definition add_chunks (name : string) (cs : list text)
    (acc : list text * list meta) : list text * list meta :=
  foldl (λ acc ic, (acc.1 ++ [ic.2], acc.2 ++ [Meta name ic.1])) acc (enumerate cs).

(** The loop over the files, each a name and its content. *)
Fixpoint collect (html_to_text : text → text) (chunk : text → outcome (list text))
    (files : list (string * text)) (acc : list text * list meta)
    : outcome (list text * list meta) :=
  match files with
  | [] => Returns acc
  | (name, html) :: files' =>
      cs ← chunk (html_to_text html);
      collect html_to_text chunk files' (add_chunks name cs acc)
  end.

(** [build_index_from_dir] up to the payload. [files] is
    [sorted(pdir.glob("*.html"))] with the content of each file. *)
Definition build_payload (html_to_text : text → text)
    (chunk : text → outcome (list text)) (no_files : string)
    (files : list (string * text)) : outcome (index F) :=
  match files with
  | [] => Raises (RuntimeError no_files)
  | _ =>
      acc ← collect html_to_text chunk files ([], []);
      let vecs := embed_texts acc.1 in
      arr ← np_array vecs;
      rows ← normalize_rows arr;
      mret (Index rows acc.2 acc.1)
  end.

(** A chunk as the specification's data model has it: its text, the name of
    its document and its position in the document. *)
Record chunk : Type := Chunk { text_of : text; source_name : string; chunk_index : Z }.

(** The chunks of a corpus in the order of the specification: document by
    document, each document normalised and chunked, each chunk with its
    position in its document. *)
Definition corpus_chunks (html_to_text : text → text)
    (chunk_fn : text → outcome (list text)) (files : list (string * text))
    : list chunk :=
  flat_map (λ f, match chunk_fn (html_to_text f.2) with
                 | Returns cs => imap (λ i c, Chunk c f.1 (Z.of_nat i)) cs
                 | _ => []
                 end)
           files.

(** Entry [i] of each of the three collections of [idx] belongs to chunk [i]
    of [cs]: its text, its source and position, and the normalised embedding
    of its text. *)
Definition index_of_chunks (embed_one : text → list F) (cs : list chunk)
    (idx : index F) : Prop :=
  chunks idx = text_of <$> cs
  ∧ metas idx = (λ c, Meta (source_name c) (chunk_index c)) <$> cs
  ∧ vectors idx = (λ c, normalize (embed_one (text_of c))) <$> cs.

(** [build_index_from_dir] with the write of the index file: the store
    changes only when the payload was built. *)
Definition build_and_write (payload : outcome (index F)) (index_path : string)
    (fs : store F) : outcome (index F) * store F :=
  match payload with
  | Returns p => (Returns p, <[index_path := p]> fs)
  | _ => (payload, fs)
  end.

End Index.

(** Exact integer arithmetic in place of float32, a service that embeds a
    text as its length and the constant 1, and an index of three entries:
    instances on which the definitions run. *)
Definition int_arith : Float32 Z := {|
  f32_inhabited := populate 0;
  norm := λ _, 1;
  div_eps := λ x _, x;
  dot := λ r q, foldr Z.add 0 (zip_with Z.mul r q);
  flt := Z.ltb;
|}.

Definition embed_length (t : text) : list Z := [len t; 1].

Definition length_embeddings : Embeddings Z := {| embed_texts := fmap embed_length |}.

(** A parser that reads the markup as one text node. *)
Definition one_text_node : HtmlParser :=
  {| parse := λ html, Tag "[document]" [NavigableString html] |}.

Definition small_index : index Z :=
  Index [[1; 0]; [0; 1]; [1; 0]]
        [Meta "a.html" 0; Meta "a.html" 1; Meta "b.html" 0]
        [txt "x"; txt "y"; txt "z"].

End Index.

Import Index.

Module RagIndex.
Section RagIndex.
Context {F : Type} `{!Float32 F} `{!Embeddings F} `{!HtmlParser}.

(** rag_index.py: [build_index_from_dir] *)
Definition build_index_from_dir (files : list (string * text))
    (data_dir index_path : string) (fs : store F) : outcome (index F) * store F :=
  build_and_write
    (build_payload RagIndexText.html_to_text
       (λ s, RagIndexChunk.chunk_text s
               RagIndexChunk.default_max_chars RagIndexChunk.default_overlap)
       ("No .html files found under " +:+ data_dir) files)
    index_path fs.

End RagIndex.
End RagIndex.

Module EmbedTexts.
Section EmbedTexts.
Context {F : Type} `{!Float32 F} `{!Embeddings F} `{!HtmlParser}.

(** embed_texts.py: [build_index_from_dir] *)
Definition build_index_from_dir (files : list (string * text))
    (data_dir index_path : string) (fs : store F) : outcome (index F) * store F :=
  build_and_write
    (build_payload HtmlToText.html_to_text
       (λ s, EmbedTextsChunk.chunk_text s
               EmbedTextsChunk.default_max_chars EmbedTextsChunk.default_overlap)
       ("No .html files found in " +:+ data_dir) files)
    index_path fs.

End EmbedTexts.
End EmbedTexts.

(** ** SchemaValidator: [deep_keys], [validate_schema] *)

Module Validator.

Local Open Scope string_scope.

(** A value [json.loads] returns. An object keeps its items in insertion
    order. *)
Inductive json : Type :=
| JNull
| JBool (b : bool)
| JInt (n : Z)
| JFloat (f : float)
| JStr (s : string)
| JList (l : list json)
| JDict (items : list (string * json)).

(** [str(v)] of a float, a list or a dict is Python's [repr], which is not
    modelled: no property depends on what it prints. *)
Class Repr := { repr : json → string }.

(** [bool(v)] *)
Definition truthy (v : json) : bool :=
  match v with
  | JNull => false
  | JBool b => b
  | JInt n => negb (n =? 0)%Z
  | JFloat f => negb (PrimFloat.eqb f 0%float)
  | JStr s => negb (bool_decide (s = ""))
  | JList l => match l with [] => false | _ => true end
  | JDict items => match items with [] => false | _ => true end
  end.

(** [str(v)] *)
Definition str `{Repr} (v : json) : string :=
  match v with
  | JNull => "None"
  | JBool true => "True"
  | JBool false => "False"
  | JInt n => NilZero.string_of_int (Z.to_int n)
  | JStr s => s
  | _ => repr v
  end.

(** [d.get(k)] *)
Fixpoint get (d : list (string * json)) (k : string) : option json :=
  match d with
  | [] => None
  | (k', v) :: d' => if bool_decide (k' = k) then Some v else get d' k
  end.

(** [str(node.get(k, "") or "")] *)
Definition field_str `{Repr} (node : list (string * json)) (k : string) : string :=
  let v := default (JStr "") (get node k) in
  str (if truthy v then v else JStr "").

(** [f"{prefix}.{k}" if prefix else k] *)
Definition join_path (prefix k : string) : string :=
  if bool_decide (prefix = "") then k else prefix +:+ "." +:+ k.

(** The body of the loop of [deep_keys] for a value [v] at [path]:
    [deep_keys(v, path)] when [v] is a dict, [[path]] otherwise. *)
Fixpoint deep_keys_at (v : json) (path : string) : list string :=
  match v with
  | JDict items =>
      flat_map (λ kv, deep_keys_at kv.2 (join_path path kv.1)) items
  | _ => [path]
  end.

(** [deep_keys(d, prefix)] *)
Definition deep_keys (d : list (string * json)) (prefix : string) : list string :=
  flat_map (λ kv, deep_keys_at kv.2 (join_path prefix kv.1)) d.

Definition date_fields : list (string * json) :=
  [("day", JStr ""); ("month", JStr ""); ("year", JStr "")].

Definition REQUIRED_SCHEMA : list (string * json) :=
  [ ("lastName", JStr "");
    ("firstName", JStr "");
    ("idNumber", JStr "");
    ("gender", JStr "");
    ("dateOfBirth", JDict date_fields);
    ("address",
     JDict [ ("street", JStr ""); ("houseNumber", JStr ""); ("entrance", JStr "");
             ("apartment", JStr ""); ("city", JStr ""); ("postalCode", JStr "");
             ("poBox", JStr "") ]);
    ("landlinePhone", JStr "");
    ("mobilePhone", JStr "");
    ("jobType", JStr "");
    ("dateOfInjury", JDict date_fields);
    ("timeOfInjury", JStr "");
    ("accidentLocation", JStr "");
    ("accidentAddress", JStr "");
    ("accidentDescription", JStr "");
    ("injuredBodyPart", JStr "");
    ("signature", JStr "");
    ("formFillingDate", JDict date_fields);
    ("formReceiptDateAtClinic", JDict date_fields);
    ("medicalInstitutionFields",
     JDict [ ("healthFundMember", JStr ""); ("natureOfAccident", JStr "");
             ("medicalDiagnoses", JStr "") ]) ].

Definition date_keys : list string :=
  ["dateOfBirth"; "dateOfInjury"; "formFillingDate"; "formReceiptDateAtClinic"].

(** [set(deep_keys(REQUIRED_SCHEMA))] *)
Definition required_paths : gset string := list_to_set (deep_keys REQUIRED_SCHEMA "").

(** [set(deep_keys(payload)) if isinstance(payload, dict) else set()] *)
Definition got_paths (payload : json) : gset string :=
  match payload with
  | JDict d => list_to_set (deep_keys d "")
  | _ => ∅
  end.

(** [sorted(list(a - b))] *)
Definition sorted_difference (a b : gset string) : list string :=
  sorted String.ltb id (elements (a ∖ b)).

(** [f"{label}: {paths}"], appended when [paths] is not empty. *)
Definition paths_issue `{Repr} (label : string) (paths : list string) : list string :=
  match paths with
  | [] => []
  | _ => [label +:+ ": " +:+ repr (JList (JStr <$> paths))]
  end.

Definition id_number_message : string :=
  "idNumber must be exactly 9 digits (or empty).".

(** The check of [idNumber]. *)
Definition id_number_issues `{Repr} (payload : list (string * json)) : list string :=
  let idn := field_str payload "idNumber" in
  if negb (bool_decide (idn = ""))
     && (negb (isdigit idn) || negb (bool_decide (String.length idn = 9%nat)))
  then [id_number_message] else [].

(** The issue of one sub-field, read as the string [s]. *)
Definition part_issue (label part : string) (width : nat) (s : string) : list string :=
  if negb (bool_decide (String.length s = width) && isdigit s)
  then [label +:+ "." +:+ part +:+ " must be "
          +:+ NilZero.string_of_uint (Nat.to_uint width) +:+ " digits (or empty)."]
  else [].

(** [check_date(node, label)] *)
Definition check_date `{Repr} (node : list (string * json)) (label : string) : list string :=
  let d := field_str node "day" in
  let m := field_str node "month" in
  let y := field_str node "year" in
  if existsb (λ s, negb (bool_decide (s = ""))) [d; m; y] then
    part_issue label "day" 2 d ++ part_issue label "month" 2 m
      ++ part_issue label "year" 4 y
  else [].

(** [payload.get(date_key, {}) if isinstance(payload.get(date_key), dict) else {}] *)
Definition date_node (payload : list (string * json)) (date_key : string)
    : list (string * json) :=
  match get payload date_key with
  | Some (JDict node) => node
  | _ => []
  end.

(** The field-format checks, run when the payload is a dict. *)
Definition format_issues `{Repr} (payload : list (string * json)) : list string :=
  id_number_issues payload
    ++ flat_map (λ date_key, check_date (date_node payload date_key) date_key) date_keys.

(** [validate_schema(payload)] *)
Definition validate_schema `{Repr} (payload : json) : list string :=
  let missing := sorted_difference required_paths (got_paths payload) in
  let extras := sorted_difference (got_paths payload) required_paths in
  paths_issue "Missing keys/paths" missing
    ++ paths_issue "Unexpected extra keys/paths" extras
    ++ match payload with
       | JDict d => format_issues d
       | _ => []
       end.

(** *** The conditions the checks of the code test

    These follow the code, not the specification: [ValidatorSpec] below
    holds the checks as section 4.4 words them. *)

(** The string read from a sub-field holds exactly [width] digits. *)
Definition well_formed (width : nat) (s : string) : Prop :=
  String.length s = width ∧ isdigit s = true.

(** [idNumber] passes: empty once read, or exactly nine digits. *)
Definition id_number_passes `{Repr} (payload : list (string * json)) : Prop :=
  field_str payload "idNumber" = "" ∨ well_formed 9 (field_str payload "idNumber").

(** A date group passes [check_date]: the three sub-fields read empty, or
    each of them is well formed. *)
Definition date_group_passes `{Repr} (payload : list (string * json))
    (date_key : string) : Prop :=
  let node := date_node payload date_key in
  (field_str node "day" = "" ∧ field_str node "month" = "" ∧ field_str node "year" = "")
  ∨ (well_formed 2 (field_str node "day") ∧ well_formed 2 (field_str node "month")
     ∧ well_formed 4 (field_str node "year")).

(** All field-format checks pass; they apply to a dict only. *)
Definition format_checks_pass `{Repr} (payload : json) : Prop :=
  match payload with
  | JDict d => id_number_passes d ∧ ∀ date_key, date_key ∈ date_keys → date_group_passes d date_key
  | _ => True
  end.

(** A payload of the required shape with the given [idNumber] and
    [dateOfBirth] values. *)
Definition payload_with (id_number : json) (birth : list (string * json)) : json :=
  JDict (map (λ kv, if bool_decide (kv.1 = "idNumber") then (kv.1, id_number)
                    else if bool_decide (kv.1 = "dateOfBirth") then (kv.1, JDict birth)
                    else kv)
             REQUIRED_SCHEMA).

(** A [repr] that prints nothing of the value, to run the definitions. *)
Definition no_repr : Repr := {| repr := λ _, "..." |}.

(** Day given, month and year left empty. *)
Definition partial_birth : list (string * json) :=
  [("day", JStr "01"); ("month", JStr ""); ("year", JStr "")].

End Validator.

(** ** The validator as section 4.4 of the specification words it *)

Module ValidatorSpec.

Import Validator.
Local Open Scope string_scope.

(** The chains of keys from the root of a value to its leaves: "recursing
    into nested mappings; a path reaching a non-mapping leaf is terminal".
    An empty mapping has none. *)
Fixpoint key_chains (v : json) : list (list string) :=
  match v with
  | JDict items => flat_map (λ kv, map (cons kv.1) (key_chains kv.2)) items
  | _ => [[]]
  end.

(** The keys of a chain joined with dots. *)
Fixpoint dot_join (chain : list string) : string :=
  match chain with
  | [] => ""
  | [k] => k
  | k :: chain' => k +:+ "." +:+ dot_join chain'
  end.

(** The set of dot-joined key paths of a mapping; a value that is not a
    mapping has no key. *)
Definition key_paths (v : json) : gset string :=
  match v with
  | JDict _ => list_to_set (map dot_join (key_chains v))
  | _ => ∅
  end.

(** A digit as the specification has it: an ASCII digit. *)
Definition ascii_digit (c : ascii) : bool := code_in c 48 57.

(** Exactly [width] digits, for a reading [is_digit] of "digit". *)
Definition digits (is_digit : ascii → bool) (width : nat) (s : string) : Prop :=
  String.length s = width ∧ forallb is_digit (list_ascii_of_string s) = true.

(** A field passes when it is empty or holds exactly [width] digits. *)
Definition empty_or_digits (is_digit : ascii → bool) (width : nat) (s : string) : Prop :=
  s = "" ∨ digits is_digit width s.

(** The text of the field [k] of [node]: a string as it is, another value
    as [str] prints it, and nothing for a field that is missing, null, false,
    zero or empty. *)
Definition field_text `{Repr} (node : list (string * json)) (k : string) : string :=
  match get node k with
  | None | Some JNull | Some (JBool false) | Some (JList []) | Some (JDict []) => ""
  | Some (JBool true) => "True"
  | Some (JInt n) => if (n =? 0)%Z then "" else NilZero.string_of_int (Z.to_int n)
  | Some (JFloat f) => if PrimFloat.eqb f 0%float then "" else repr (JFloat f)
  | Some (JStr s) => s
  | Some v => repr v
  end.

(** The four date groups. *)
Definition date_groups : list string :=
  ["dateOfBirth"; "dateOfInjury"; "formFillingDate"; "formReceiptDateAtClinic"].

(** The nested object of a date group; none when the value is no mapping. *)
Definition nested_object (payload : list (string * json)) (date_key : string)
    : list (string * json) :=
  match get payload date_key with
  | Some (JDict node) => node
  | _ => []
  end.

(** "each present sub-field is checked independently ...; a missing/empty
    sub-field is not itself an error" *)
Definition date_group_ok `{Repr} (is_digit : ascii → bool)
    (payload : list (string * json)) (date_key : string) : Prop :=
  let node := nested_object payload date_key in
  empty_or_digits is_digit 2 (field_text node "day")
  ∧ empty_or_digits is_digit 2 (field_text node "month")
  ∧ empty_or_digits is_digit 4 (field_text node "year").

(** The field-format checks, "applied only if the payload is a mapping". *)
Definition format_checks_ok `{Repr} (is_digit : ascii → bool) (payload : json) : Prop :=
  match payload with
  | JDict d =>
      empty_or_digits is_digit 9 (field_text d "idNumber")
      ∧ ∀ date_key, date_key ∈ date_groups → date_group_ok is_digit d date_key
  | _ => True
  end.

(** "payload's key-paths exactly equal template's key-paths and all format
    checks pass" *)
Definition valid `{Repr} (is_digit : ascii → bool) (payload : json) : Prop :=
  key_paths payload = key_paths (JDict REQUIRED_SCHEMA)
  ∧ format_checks_ok is_digit payload.

(** No key of the top level of the payload is the empty string. *)
Definition no_empty_top_key (payload : json) : Prop :=
  match payload with
  | JDict d => Forall (λ kv, kv.1 ≠ "") d
  | _ => True
  end.

(** No date group is filled in part: its three sub-fields are all empty or
    all given. *)
Definition no_partial_date `{Repr} (payload : json) : Prop :=
  match payload with
  | JDict d =>
      ∀ date_key, date_key ∈ date_groups →
        let node := nested_object d date_key in
        (field_text node "day" = "" ∧ field_text node "month" = ""
         ∧ field_text node "year" = "")
        ∨ (field_text node "day" ≠ "" ∧ field_text node "month" ≠ ""
           ∧ field_text node "year" ≠ "")
  | _ => True
  end.

(** A payload of the required shape whose [idNumber] is eight ASCII digits
    and the superscript two (code point 178), all other leaves empty. *)
Definition superscript_id : json :=
  payload_with (JStr ("12345678" +:+ String (ascii_of_nat 178) "")) date_fields.

End ValidatorSpec.

(** ** Answers of the chat model: code fences and markers *)

Module Fences.

(** [s.startswith(p)] *)
Definition startswith (p s : text) : bool := bool_decide (take (length p) s = p).

(** [s.endswith(p)]: the last [len(p)] characters of [s] are [p]. *)
Definition endswith (p s : text) : bool :=
  bool_decide (drop (length s - length p) s = p).

(** [s.rstrip()] *)
Definition rstrip (s : text) : text := rev (lstrip (rev s)).

(** [s.lstrip(chars)] *)
Fixpoint lstrip_chars (chars : text) (s : text) : text :=
  match s with
  | [] => []
  | c :: s' => if bool_decide (c ∈ chars) then lstrip_chars chars s' else s
  end.

(** [s.strip(chars)] *)
Definition strip_chars (chars : text) (s : text) : text :=
  rev (lstrip_chars chars (rev (lstrip_chars chars s))).

(** [c.lower()] for a code point below 256: the letters A to Z and the
    capitals 0xc0 to 0xde, the multiplication sign 0xd7 apart, move up by
    32. *)
Definition lower_char (c : ascii) : ascii :=
  if code_in c 65 90 || (code_in c 192 222 && negb (code_in c 215 215))
  then ascii_of_nat (nat_of_ascii c + 32) else c.

(** [s.lower()] *)
Definition lower (s : text) : text := map lower_char s.

(** [s.removeprefix(p)] *)
Definition removeprefix (p s : text) : text :=
  if startswith p s then drop (length p) s else s.

(** [s.removesuffix(p)] *)
Definition removesuffix (p s : text) : text :=
  if endswith p s then take (length s - length p) s else s.

Definition fence : text := txt "```".

(** extract_fields.py: [_strip_code_fences] *)
Definition _strip_code_fences (s : text) : text :=
  let t := strip s in
  if startswith fence t then
    let t := lstrip_chars (txt "`") t in
    let t := if startswith (txt "json") (lower t) then lstrip (drop 4 t) else t in
    if endswith fence t then rstrip (slice_to t (-3)) else t
  else t.

(** [json.loads] is a collaborator: it returns a value or raises. *)
Class JsonLoads (A : Type) := { loads : text → outcome A }.

(** pipeline.py: [clean_json_output] *)
Definition clean_json_output {A} `{!JsonLoads A} (output : text) : outcome A :=
  let output :=
    if startswith (txt "```json") output then
      strip (removesuffix fence (removeprefix (txt "```json") output))
    else if startswith fence output then
      strip (removesuffix fence (removeprefix fence output))
    else output in
  loads output.

(** app_streamlit.py, [main]: [cleaned], the text given to [json.loads]. *)
Definition cleaned (raw : text) : text :=
  let c := strip raw in
  if startswith fence c then
    let c := strip_chars (txt "`") c in
    if startswith (txt "json") c then lstrip (drop 4 c) else c
  else c.

(** The index of the first occurrence of [sep] in [s]. *)
Fixpoint find (sep s : text) : option nat :=
  if startswith sep s then Some 0%nat
  else match s with
       | [] => None
       | _ :: s' => S <$> find sep s'
       end.

(** [sep in s] *)
Definition contains (sep s : text) : bool := bool_decide (is_Some (find sep s)).

(** [s.split(sep, 1)]: the text before the first [sep], and the text after
    it when there is one. *)
Definition split1 (sep s : text) : text * option text :=
  match find sep s with
  | Some i => (take i s, Some (drop (i + length sep) s))
  | None => (s, None)
  end.

Definition JSON_marker : text := txt "<<<JSON>>>".
Definition END_marker : text := txt "<<<END>>>".

(** server.py, [collect]: [blob], the text given to [json.loads]; there is
    none when a marker is missing. *)
Definition blob (reply : text) : option text :=
  if contains JSON_marker reply && contains END_marker reply then
    rest ← (split1 JSON_marker reply).2;
    Some (strip (split1 END_marker rest).1)
  else None.

End Fences.

(** ** The API key and the last question *)

Module Server.

Local Open Scope string_scope.

(** [HTTPException(status_code, detail)] *)
Record HTTPException := { status_code : Z; detail : string }.

(** [v or w] on optional strings: [v] when it is a string that is not
    empty, [w] otherwise. *)
Definition or_else (v w : option string) : option string :=
  match v with
  | Some s => if bool_decide (s = "") then w else v
  | None => w
  end.

(** server.py, line 24: the first [require_key]. The definition at line 65
    takes its name before a route is declared. *)
Definition require_key_first (API_KEY : string) (ALLOW_EMPTY_API_KEY : bool)
    (x_api_key : option string) : HTTPException + unit :=
  if bool_decide (API_KEY = "") then inr ()
  else
    let effective :=
      or_else x_api_key (if ALLOW_EMPTY_API_KEY then Some API_KEY else None) in
    if bool_decide (effective ≠ Some API_KEY)
    then inl {| status_code := 401; detail := "invalid api key" |}
    else inr ().

(** server.py, line 65: [require_key], the dependency of [/collect] and
    [/qa]. *)
Definition require_key (API_KEY : string) (x_api_key : option string)
    : HTTPException + unit :=
  if negb (bool_decide (API_KEY = "")) && bool_decide (x_api_key ≠ Some API_KEY)
  then inl {| status_code := 401; detail := "invalid api key" |}
  else inr ().

Record Message := { role : string; content : text }.

(** server.py, [qa]:
    [next((m.content for m in reversed(req.history) if m.role == "user"), "")] *)
Definition last_user_msg (history : list Message) : text :=
  match List.filter (λ m, bool_decide (role m = "user")) (rev history) with
  | m :: _ => content m
  | [] => []
  end.

End Server.

(** ** The text of a scanned form *)

Module Ocr.

(** The layout the OCR service returns, as far as the code reads it: pages
    of lines, where a line or its content may be missing. *)
Record Line := { line_content : option text }.
Record Page := { page_lines : list (option Line) }.
Record Layout := { pages : list Page }.

(** The OCR call is a collaborator: it returns a layout or raises. *)
Class LayoutClient := { _get_layout_result : string → outcome Layout }.

(** [if line and getattr(line, "content", None)] *)
Definition line_text (line : option Line) : list text :=
  match line with
  | Some {| line_content := Some c |} => if Soup.nonempty c then [c] else []
  | _ => []
  end.

(** extract_fields.py: [_extract_text_from_layout] *)
Definition _extract_text_from_layout (result : Layout) (max_chars : option Z) : text :=
  let lines := flat_map (λ page, flat_map line_text (page_lines page)) (pages result) in
  let text := join [LF] lines in
  match max_chars with
  | Some m => if m <? len text then slice_to text m else text
  | None => text
  end.

(** extract_fields.py: [preview_ocr] *)
Definition preview_ocr `{LayoutClient} (file_path : string) : option text :=
  match _get_layout_result file_path with
  | Returns result => Some (_extract_text_from_layout result (Some 1500))
  | _ => None
  end.

End Ocr.

(** ** The validation tab *)

Module App.

Import Validator Fences.

(** What the validation tab shows. *)
Inductive validation : Type :=
| Skipped
| Matches
| Issues (issues : list string).

(** app_streamlit.py, [main]: the output is cleaned and parsed; validation is
    skipped when [json.loads] raises or returns [None], and runs on every
    other value. *)
Definition validation_tab `{Repr} `{!JsonLoads json} (raw : text) : validation :=
  match loads (cleaned raw) with
  | Returns JNull => Skipped
  | Returns result_json =>
      match validate_schema result_json with
      | [] => Matches
      | issues => Issues issues
      end
  | _ => Skipped
  end.

End App.

(** * Properties *)

(** ** Slices *)

Section SliceFacts.
Context {A : Type}.
Implicit Types l : list A.

Lemma slice_bound_in_range n i : 0 ≤ i ≤ n → slice_bound n i = i.
Proof. intros ?. unfold slice_bound. case_match; lia. Qed.

Lemma slice_in_range l a b :
  0 ≤ a → a ≤ b → b ≤ len l →
  slice l a b = drop (Z.to_nat a) (take (Z.to_nat b) l).
Proof.
  intros ???. unfold slice. rewrite !slice_bound_in_range by (unfold len in *; lia).
  done.
Qed.

Lemma slice_whole l : slice l 0 (len l) = l.
Proof.
  rewrite slice_in_range by (unfold len; lia).
  unfold len. rewrite Nat2Z.id, firstn_all. done.
Qed.

Lemma slice_length l a b :
  0 ≤ a → a ≤ b → b ≤ len l → len (slice l a b) = b - a.
Proof.
  intros ???. rewrite slice_in_range by done. unfold len in *.
  rewrite length_drop, length_take. lia.
Qed.

Lemma slice_to_nonneg l k : 0 ≤ k → slice_to l k = take (Z.to_nat k) l.
Proof.
  intros ?. unfold slice_to, slice_bound, len.
  case_match; [lia|]. destruct (Z.min_spec k (Z.of_nat (length l))) as [[? ->]|[? ->]].
  - done.
  - rewrite Nat2Z.id, firstn_all. symmetry. apply take_ge. lia.
Qed.

End SliceFacts.

(** ** Chunker *)

Section ChunkerFacts.
Context {char : Type}.
Variable at_end : Z → Z → bool.
Hypothesis at_end_spec : ∀ e n, e ≤ n → at_end e n = bool_decide (e = n).
Variables (max_chars overlap : Z).

Lemma chunk_loop_windows fuel (s : list char) start (ws : list (Z * Z)) :
  Chunker.chunk_loop at_end fuel s max_chars overlap start (Chunker.window_slice s <$> ws)
  = fmap (M := outcome) (fmap (M := list) (Chunker.window_slice s))
      (Chunker.window_loop at_end fuel (len s) max_chars overlap start ws).
Proof.
  revert start ws. induction fuel as [|fuel IH]; intros start ws; simpl; [done|].
  destruct (start <? len s); [|done].
  replace ((Chunker.window_slice s <$> ws)
             ++ [slice s start (Z.min (len s) (start + max_chars))])
    with (Chunker.window_slice s <$> (ws ++ [(start, Z.min (len s) (start + max_chars))]))
    by (by rewrite fmap_app).
  destruct (at_end _ _); [done|]. apply IH.
Qed.

(** A run that returns with some bound on the loop returns the same chunks
    with every larger bound. *)
Lemma chunk_loop_fuel_mono fuel fuel' (s : list char) start chunks r :
  (fuel ≤ fuel')%nat →
  Chunker.chunk_loop at_end fuel s max_chars overlap start chunks = Returns r →
  Chunker.chunk_loop at_end fuel' s max_chars overlap start chunks = Returns r.
Proof.
  revert fuel' start chunks.
  induction fuel as [|fuel IH]; intros fuel' start chunks Hle Hrun; [done|].
  destruct fuel' as [|fuel']; [lia|]. cbn [Chunker.chunk_loop] in *.
  destruct (start <? len s); [|done].
  destruct (at_end _ _); [done|]. apply IH; [lia|done].
Qed.

Hypothesis overlap_ok : 0 ≤ overlap < max_chars.

Lemma window_loop_chain n fuel start acc :
  0 ≤ start < n → (Z.to_nat (n - start) < fuel)%nat →
  ∃ ws, Chunker.window_loop at_end fuel n max_chars overlap start acc = Returns (acc ++ ws)
        ∧ Chunker.chain n max_chars overlap start ws.
Proof.
  revert start acc. induction fuel as [|fuel IH]; intros start acc Hs Hf; [lia|].
  cbn [Chunker.window_loop]. destruct (Z.ltb_spec start n) as [_|]; [|lia].
  destruct (Z.le_gt_cases n (start + max_chars)) as [Hle|Hlt];
    [rewrite Z.min_l by done|rewrite Z.min_r by lia].
  - rewrite (at_end_spec n n) by lia. rewrite bool_decide_eq_true_2 by done.
    exists [(start, n)]. split; [done|]. constructor. lia.
  - rewrite (at_end_spec (start + max_chars) n) by lia.
    rewrite bool_decide_eq_false_2 by lia.
    rewrite Z.max_r by lia.
    destruct (IH (start + max_chars - overlap) (acc ++ [(start, start + max_chars)]))
      as (ws & -> & Hch); [lia|lia|].
    exists ((start, start + max_chars) :: ws). split.
    + by rewrite <- app_assoc.
    + constructor; [lia|done].
Qed.

Lemma chain_bounds n start ws :
  Chunker.chain n max_chars overlap start ws → 0 ≤ start < n →
  Forall (λ w, start ≤ w.1 ∧ w.1 < w.2 ∧ w.2 ≤ n) ws.
Proof.
  induction 1 as [start|start ws Hlt Hch IH]; intros Hs.
  - repeat constructor; simpl; lia.
  - constructor; [simpl; lia|].
    eapply Forall_impl; [apply IH; lia|]. simpl. intros; lia.
Qed.

Lemma chain_covered n start ws :
  Chunker.chain n max_chars overlap start ws → 0 ≤ start < n →
  ∀ i, Chunker.covered ws i ↔ start ≤ i < n.
Proof.
  unfold Chunker.covered.
  induction 1 as [start|start ws Hlt Hch IH]; intros Hs i.
  - split.
    + intros (w & ->%list_elem_of_singleton & ?). done.
    + intros ?. exists (start, n). split; [by apply list_elem_of_singleton|done].
  - split.
    + intros (w & [->|Hin]%elem_of_cons & Hw); [simpl in Hw; lia|].
      assert (start + max_chars - overlap ≤ i < n); [|lia].
      apply IH; [lia|]. eauto.
    + intros Hi. destruct (Z.lt_ge_cases i (start + max_chars)).
      * exists (start, start + max_chars). split; [left|simpl; lia].
      * destruct (proj2 (IH ltac:(lia) i)) as (w & ? & ?); [lia|].
        exists w. split; [by right|done].
Qed.

Lemma chain_head n start ws :
  Chunker.chain n max_chars overlap start ws →
  ∃ e ws', ws = (start, e) :: ws' ∧ e = Z.min n (start + max_chars).
Proof. destruct 1; eexists _, _; (split; [done|lia]). Qed.

Lemma chain_adjacent n start ws :
  Chunker.chain n max_chars overlap start ws → 0 ≤ start < n →
  ∀ i w w', ws !! i = Some w → ws !! S i = Some w' →
    0 ≤ w.1 ∧ w.2 = w.1 + max_chars ∧ w'.1 = w.2 - overlap
    ∧ w.2 < w'.2 ∧ w'.2 ≤ n.
Proof.
  induction 1 as [start|start ws Hlt Hch IH]; intros Hs i w w' Hw Hw'.
  - done.
  - destruct i as [|i]; simpl in *.
    + injection Hw as <-. destruct (chain_head _ _ _ Hch) as (e & ws' & -> & ->).
      injection Hw' as <-. simpl. lia.
    + apply (IH ltac:(lia) i); done.
Qed.

Lemma chain_functional n start ws ws' :
  Chunker.chain n max_chars overlap start ws →
  Chunker.chain n max_chars overlap start ws' → ws = ws'.
Proof.
  intros H. revert ws'.
  induction H as [start|start ws Hlt Hch IH]; intros ws' H'; inversion H'; subst;
    try lia; [done|]. f_equal. by apply IH.
Qed.

Lemma chunk_text_fuel_windows (s : list char) :
  ∃ ws, Chunker.windows_of max_chars overlap (len s) ws
    ∧ ∀ fuel, (length s < fuel)%nat →
        Chunker.chunk_windows_fuel at_end fuel (len s) max_chars overlap = Returns ws
        ∧ Chunker.chunk_text_fuel at_end fuel s max_chars overlap
          = Returns (Chunker.window_slice s <$> ws).
Proof.
  unfold Chunker.windows_of, Chunker.chunk_windows_fuel, Chunker.chunk_text_fuel.
  destruct (Z.leb_spec (len s) max_chars) as [Hle|Hlt].
  - exists [(0, len s)]. split; [by left|]. intros fuel _. split; [done|].
    simpl. unfold Chunker.window_slice. simpl. by rewrite slice_whole.
  - destruct (window_loop_chain (len s) (S (length s)) 0 []) as (ws & _ & Hch);
      [unfold len in *; lia|unfold len; lia|].
    exists ws. split; [by right|]. intros fuel Hfuel.
    destruct (window_loop_chain (len s) fuel 0 []) as (ws' & Hrun & Hch');
      [unfold len in *; lia|unfold len; lia|].
    rewrite (chain_functional _ _ _ _ Hch Hch'). split; [done|].
    change (@nil (list char)) with (Chunker.window_slice s <$> @nil (Z * Z)).
    rewrite chunk_loop_windows, Hrun. done.
Qed.

Lemma windows_of_covered n ws :
  0 ≤ n → Chunker.windows_of max_chars overlap n ws → ∀ i, Chunker.covered ws i ↔ 0 ≤ i < n.
Proof.
  intros Hn [[_ ->]|[Hlt Hch]] i.
  - unfold Chunker.covered. split.
    + intros (w & ->%list_elem_of_singleton & ?). done.
    + intros ?. exists (0, n). split; [by apply list_elem_of_singleton|done].
  - apply (chain_covered n 0 ws Hch). lia.
Qed.

Lemma slices_overlap (s : list char) (w w' : Z * Z) :
  0 ≤ w.1 → w.2 = w.1 + max_chars → w'.1 = w.2 - overlap →
  w.2 < w'.2 → w'.2 ≤ len s →
  Chunker.last_chars overlap (Chunker.window_slice s w)
    = Chunker.first_chars overlap (Chunker.window_slice s w')
  ∧ len (Chunker.first_chars overlap (Chunker.window_slice s w')) = overlap.
Proof.
  destruct w as [a b], w' as [a' b']. simpl. intros Ha -> -> Hb Hb'.
  unfold Chunker.last_chars, Chunker.first_chars, Chunker.window_slice. simpl.
  rewrite !slice_in_range by lia.
  assert (Hlen : (Z.to_nat b' ≤ length s)%nat) by (unfold len in *; lia).
  split.
  - rewrite length_drop, length_take, drop_drop, take_drop_commute, take_take.
    f_equal; [lia|]. f_equal. lia.
  - unfold len. rewrite length_take, length_drop, length_take. lia.
Qed.

Lemma windows_overlap (s : list char) ws :
  max_chars < len s →
  Chunker.windows_of max_chars overlap (len s) ws →
  (1 < length ws)%nat
  ∧ ∀ i c c', (Chunker.window_slice s <$> ws) !! i = Some c →
      (Chunker.window_slice s <$> ws) !! S i = Some c' →
      Chunker.last_chars overlap c = Chunker.first_chars overlap c'
      ∧ len (Chunker.first_chars overlap c') = overlap.
Proof.
  intros Hlong [[? _]|[_ Hch]]; [lia|]. split.
  - inversion Hch as [|? ws' ? Hch']; subst; [lia|].
    destruct (chain_head _ _ _ Hch') as (? & ? & -> & _). simpl. lia.
  - intros i c c' (w & -> & Hw)%list_lookup_fmap_Some
      (w' & -> & Hw')%list_lookup_fmap_Some.
    destruct (chain_adjacent _ _ _ Hch ltac:(lia) i w w' Hw Hw')
      as (? & ? & ? & ? & ?).
    by apply slices_overlap.
Qed.

Lemma windows_of_nonempty n ws :
  Chunker.windows_of max_chars overlap n ws → ws ≠ [].
Proof.
  intros [[_ ->]|[_ Hch]]; [done|].
  by destruct (chain_head _ _ _ Hch) as (? & ? & -> & _).
Qed.

(** With the default bound on the loop [chunk_text] returns at least one
    chunk. *)
Lemma chunk_text_returns (s : list char) :
  ∃ cs, Chunker.chunk_text_fuel at_end (Chunker.default_fuel s) s max_chars overlap
          = Returns cs ∧ cs ≠ [].
Proof.
  destruct (chunk_text_fuel_windows s) as (ws & Hws & Hrun).
  exists (Chunker.window_slice s <$> ws). split.
  - apply Hrun. unfold Chunker.default_fuel. lia.
  - apply windows_of_nonempty in Hws. by destruct ws.
Qed.

End ChunkerFacts.

Lemma rag_at_end_spec e n : e ≤ n → RagIndexChunk.at_end e n = bool_decide (e = n).
Proof.
  intros ?. unfold RagIndexChunk.at_end.
  destruct (Z.leb_spec n e); [rewrite bool_decide_eq_true_2|rewrite bool_decide_eq_false_2]; lia.
Qed.

Lemma embed_at_end_spec e n : e ≤ n → EmbedTextsChunk.at_end e n = bool_decide (e = n).
Proof.
  intros ?. unfold EmbedTextsChunk.at_end.
  destruct (Z.eqb_spec e n); [rewrite bool_decide_eq_true_2|rewrite bool_decide_eq_false_2]; lia.
Qed.

Lemma windows_of_functional max_chars overlap n ws ws' :
  0 ≤ overlap < max_chars →
  Chunker.windows_of max_chars overlap n ws →
  Chunker.windows_of max_chars overlap n ws' → ws = ws'.
Proof.
  intros ? [[? ->]|[? Hch]] [[? ->]|[? Hch']]; try lia; [done|].
  by eapply chain_functional.
Qed.

(** C9: a text no longer than [max_chars] is returned as the only chunk,
    whatever the overlap and the bound on the loop, by both copies of
    [chunk_text]; the empty text is such a text whenever [max_chars >= 0]. *)
Theorem chunk_text_short {char : Type} (s : list char) (max_chars overlap : Z) :
  len s ≤ max_chars →
  RagIndexChunk.chunk_text s max_chars overlap = Returns [s]
  ∧ EmbedTextsChunk.chunk_text s max_chars overlap = Returns [s]
  ∧ ∀ fuel, RagIndexChunk.chunk_text_fuel fuel s max_chars overlap = Returns [s]
            ∧ EmbedTextsChunk.chunk_text_fuel fuel s max_chars overlap = Returns [s].
Proof.
  intros Hle.
  unfold RagIndexChunk.chunk_text, EmbedTextsChunk.chunk_text,
    RagIndexChunk.chunk_text_fuel, EmbedTextsChunk.chunk_text_fuel,
    Chunker.chunk_text_fuel.
  destruct (Z.leb_spec (len s) max_chars); [done|lia].
Qed.

(** The empty text with the defaults of rag_index.py. *)
Lemma chunk_text_short_witness :
  len (txt "") ≤ RagIndexChunk.default_max_chars
  ∧ RagIndexChunk.chunk_text (txt "") RagIndexChunk.default_max_chars
      RagIndexChunk.default_overlap = Returns [txt ""].
Proof.
  assert (H : len (txt "") ≤ RagIndexChunk.default_max_chars) by (vm_compute; discriminate).
  split; [exact H|].
  exact (proj1 (chunk_text_short (txt "") RagIndexChunk.default_max_chars
                  RagIndexChunk.default_overlap H)).
Defined.

(** C3, as the code has it: [chunk_text] checks nothing. When
    [0 <= overlap < max_chars] holds, every run with more than [len(text)]
    evaluations of the loop condition returns, in both copies, the chunks of
    the same windows, and a position is in one of the windows exactly when it
    is in [0, len(text)). *)
Theorem chunk_text_terminates_and_covers {char : Type} (s : list char)
    (max_chars overlap : Z) :
  0 < max_chars → 0 ≤ overlap → overlap < max_chars →
  ∃ ws,
    (∀ fuel, (length s < fuel)%nat →
       RagIndexChunk.chunk_windows_fuel fuel (len s) max_chars overlap = Returns ws
       ∧ RagIndexChunk.chunk_text_fuel fuel s max_chars overlap
         = Returns (Chunker.window_slice s <$> ws)
       ∧ EmbedTextsChunk.chunk_windows_fuel fuel (len s) max_chars overlap = Returns ws
       ∧ EmbedTextsChunk.chunk_text_fuel fuel s max_chars overlap
         = Returns (Chunker.window_slice s <$> ws))
    ∧ RagIndexChunk.chunk_text s max_chars overlap = Returns (Chunker.window_slice s <$> ws)
    ∧ EmbedTextsChunk.chunk_text s max_chars overlap = Returns (Chunker.window_slice s <$> ws)
    ∧ ∀ i, Chunker.covered ws i ↔ 0 ≤ i < len s.
Proof.
  intros _ Hov1 Hov2. assert (Hov : 0 ≤ overlap < max_chars) by lia.
  destruct (chunk_text_fuel_windows _ rag_at_end_spec max_chars overlap Hov s)
    as (ws & Hws & Hrag).
  destruct (chunk_text_fuel_windows _ embed_at_end_spec max_chars overlap Hov s)
    as (ws' & Hws' & Hemb).
  rewrite <- (windows_of_functional _ _ _ _ _ Hov Hws Hws') in Hemb.
  exists ws. split; [|split; [|split]].
  - intros fuel Hfuel. destruct (Hrag fuel Hfuel), (Hemb fuel Hfuel). done.
  - apply Hrag. unfold Chunker.default_fuel. lia.
  - apply Hemb. unfold Chunker.default_fuel. lia.
  - apply (windows_of_covered max_chars overlap Hov (len s) ws); [unfold len; lia|done].
Qed.

(** A text of ten characters in windows of four that overlap by one. *)
Lemma chunk_text_terminates_and_covers_witness :
  ∃ ws,
    RagIndexChunk.chunk_text (txt "abcdefghij") 4 1 = Returns (Chunker.window_slice (txt "abcdefghij") <$> ws)
    ∧ ∀ i, Chunker.covered ws i ↔ 0 ≤ i < len (txt "abcdefghij").
Proof.
  destruct (chunk_text_terminates_and_covers (txt "abcdefghij") 4 1
              ltac:(lia) ltac:(lia) ltac:(lia)) as (ws & _ & Hrun & _ & Hcov).
  exists ws. split; [exact Hrun|exact Hcov].
Defined.

Lemma chunk_loop_stuck {char : Type} (at_end : Z → Z → bool) (s : list char)
    (max_chars overlap : Z) fuel chunks :
  0 < len s → 0 < max_chars → max_chars ≤ overlap →
  at_end (Z.min (len s) max_chars) (len s) = false →
  Chunker.chunk_loop at_end fuel s max_chars overlap 0 chunks = OutOfFuel.
Proof.
  intros Hs Hmax Hov Hend. revert chunks.
  induction fuel as [|fuel IH]; intros chunks; [done|].
  cbn [Chunker.chunk_loop]. destruct (Z.ltb_spec 0 (len s)); [|lia].
  rewrite Z.add_0_l, Hend.
  replace (Z.max 0 (Z.min (len s) max_chars - overlap)) with 0 by lia.
  apply IH.
Qed.

(** C3, the claim as stated fails: with [max_chars = 2 > 0] and
    [overlap = 2 >= 0], where [overlap < max_chars] does not hold, the call on
    ["abc"] is not rejected, and it does not end either, in either copy. *)
Lemma chunk_text_overlap_not_validated :
  0 < 2 ∧ 0 ≤ 2 ∧ ¬ 2 < 2
  ∧ ¬ rejects (λ fuel, RagIndexChunk.chunk_text_fuel fuel (txt "abc") 2 2)
  ∧ ¬ terminates (λ fuel, RagIndexChunk.chunk_text_fuel fuel (txt "abc") 2 2)
  ∧ ¬ terminates (λ fuel, EmbedTextsChunk.chunk_text_fuel fuel (txt "abc") 2 2).
Proof.
  assert (Hrag : ∀ fuel, RagIndexChunk.chunk_text_fuel fuel (txt "abc") 2 2 = OutOfFuel).
  { intros fuel. apply (chunk_loop_stuck RagIndexChunk.at_end (txt "abc") 2 2); done. }
  assert (Hemb : ∀ fuel, EmbedTextsChunk.chunk_text_fuel fuel (txt "abc") 2 2 = OutOfFuel).
  { intros fuel. apply (chunk_loop_stuck EmbedTextsChunk.at_end (txt "abc") 2 2); done. }
  repeat split; try lia.
  - intros (fuel & e & H). by rewrite Hrag in H.
  - intros (fuel & H). by rewrite Hrag in H.
  - intros (fuel & H). by rewrite Hemb in H.
Qed.

(** C4: when [0 <= overlap < max_chars] and the text is longer than
    [max_chars], [chunk_text] returns, and in every pair of consecutive chunks
    the last [overlap] characters of the first are the first [overlap]
    characters of the second, which has that many; this holds for the pair
    that ends in the tail chunk too, and in both copies of [chunk_text]. *)
Theorem chunk_text_consecutive_overlap {char : Type} (s : list char)
    (max_chars overlap : Z) :
  0 ≤ overlap → overlap < max_chars → max_chars < len s →
  ∃ chunks,
    RagIndexChunk.chunk_text s max_chars overlap = Returns chunks
    ∧ EmbedTextsChunk.chunk_text s max_chars overlap = Returns chunks
    ∧ (1 < length chunks)%nat
    ∧ ∀ i c c', chunks !! i = Some c → chunks !! S i = Some c' →
        Chunker.last_chars overlap c = Chunker.first_chars overlap c'
        ∧ len (Chunker.first_chars overlap c') = overlap.
Proof.
  intros Hov1 Hov2 Hlong. assert (Hov : 0 ≤ overlap < max_chars) by lia.
  destruct (chunk_text_fuel_windows _ rag_at_end_spec max_chars overlap Hov s)
    as (ws & Hws & Hrag).
  destruct (chunk_text_fuel_windows _ embed_at_end_spec max_chars overlap Hov s)
    as (ws' & Hws' & Hemb).
  rewrite <- (windows_of_functional _ _ _ _ _ Hov Hws Hws') in Hemb.
  destruct (windows_overlap max_chars overlap Hov s ws Hlong Hws) as [Hlen Hpairs].
  exists (Chunker.window_slice s <$> ws). split; [|split; [|split]].
  - apply Hrag. unfold Chunker.default_fuel. lia.
  - apply Hemb. unfold Chunker.default_fuel. lia.
  - by rewrite length_fmap.
  - exact Hpairs.
Qed.

(** The same text: its chunks ["abcd"], ["defg"], ["ghij"] share one
    character pairwise. *)
Lemma chunk_text_consecutive_overlap_witness :
  ∃ chunks,
    RagIndexChunk.chunk_text (txt "abcdefghij") 4 1 = Returns chunks
    ∧ ∀ i c c', chunks !! i = Some c → chunks !! S i = Some c' →
        Chunker.last_chars 1 c = Chunker.first_chars 1 c'.
Proof.
  destruct (chunk_text_consecutive_overlap (txt "abcdefghij") 4 1
              ltac:(lia) ltac:(lia) ltac:(vm_compute; reflexivity))
    as (chunks & Hrun & _ & _ & Hpairs).
  exists chunks. split; [exact Hrun|].
  intros i c c' Hc Hc'. exact (proj1 (Hpairs i c c' Hc Hc')).
Defined.

(** ** [sorted] *)

Section SortedFacts.
Context {A K : Type} (lt : K → K → bool) (key : A → K).
Hypothesis lt_order : strict_weak_order lt.
Variable before : A → A → Prop.

Lemma insert_by_perm x l : insert_by lt key x l ≡ₚ x :: l.
Proof.
  induction l as [|y l IH]; simpl; [done|].
  destruct (lt (key y) (key x)); [|done].
  rewrite IH. apply Permutation_swap.
Qed.

Lemma stable_sort_perm l : stable_sort lt key l ≡ₚ l.
Proof.
  induction l as [|x l IH]; simpl; [done|].
  by rewrite insert_by_perm, IH.
Qed.

Lemma placed_before_cons x y z :
  lt (key y) (key x) = false → before x z →
  placed_before lt key before y z → placed_before lt key before x z.
Proof.
  destruct lt_order as (Hasym & Htrans & Hneg).
  intros Hyx Hxz Hyz. unfold placed_before in *.
  destruct (lt (key z) (key x)) eqn:Hzx; [|by right].
  destruct Hyz as [Hyz|[Hzy _]].
  - pose proof (Htrans _ _ _ Hyz Hzx). congruence.
  - destruct (Hneg _ (key y) _ Hzx); congruence.
Qed.

Lemma insert_by_sorted x l :
  Forall (before x) l →
  StronglySorted (placed_before lt key before) l →
  StronglySorted (placed_before lt key before) (insert_by lt key x l).
Proof.
  induction l as [|y l IH]; intros Hx Hl; simpl.
  - repeat constructor.
  - apply Forall_cons in Hx as [Hxy Hx].
    apply StronglySorted_cons in Hl as [Hy Hl].
    destruct (lt (key y) (key x)) eqn:Hyx.
    + apply StronglySorted_cons. split; [|by apply IH].
      rewrite insert_by_perm. constructor; [by left|done].
    + apply StronglySorted_cons. split; [|by apply StronglySorted_cons].
      constructor; [by right|].
      rewrite Forall_forall in *. intros z Hz.
      eapply placed_before_cons; eauto.
Qed.

Lemma stable_sort_sorted l :
  StronglySorted before l →
  StronglySorted (placed_before lt key before) (stable_sort lt key l).
Proof.
  induction 1 as [|x l Hl IH Hx]; simpl; [constructor|].
  apply insert_by_sorted; [|done]. by rewrite stable_sort_perm.
Qed.

End SortedFacts.

Lemma StronglySorted_rev {A} (R : A → A → Prop) l :
  StronglySorted R l ↔ StronglySorted (flip R) (rev l).
Proof.
  induction l as [|x l IH]; simpl; [split; constructor|].
  rewrite StronglySorted_cons, StronglySorted_app, IH.
  split.
  - intros [Hx Hl]. split; [|split; [done|repeat constructor]].
    intros y ? Hy ->%list_elem_of_singleton.
    rewrite Forall_forall in Hx. apply Hx. by rewrite list_elem_of_In, in_rev, <- list_elem_of_In.
  - intros (Hx & Hl & _). split; [|done].
    rewrite Forall_forall. intros y Hy. apply (Hx y x); [|by apply list_elem_of_singleton].
    by rewrite list_elem_of_In, <- in_rev, <- list_elem_of_In.
Qed.

Lemma StronglySorted_lookup_lt {A} (R : A → A → Prop) l p q a b :
  StronglySorted R l → (p < q)%nat → l !! p = Some a → l !! q = Some b → R a b.
Proof.
  intros Hl. revert p q. induction Hl as [|x l Hl IH Hx]; intros p q Hpq Hp Hq; [done|].
  destruct q as [|q]; [lia|]. destruct p as [|p]; simpl in *.
  - injection Hp as <-. rewrite Forall_forall in Hx. apply Hx.
    by eapply list_elem_of_lookup_2.
  - apply (IH p q); [lia|done..].
Qed.

Lemma seq_sorted j n : StronglySorted (λ a b : nat, (a < b)%nat) (seq j n).
Proof.
  revert j. induction n as [|n IH]; intros j; simpl; constructor; [done|].
  apply Forall_forall. intros k Hk%elem_of_seq. lia.
Qed.

Section SortedReverse.
Context {K : Type} (lt : K → K → bool) (key : nat → K).
Hypothesis lt_order : strict_weak_order lt.

Lemma sorted_reverse_length n :
  length (sorted_reverse lt key (seq 0 n)) = n.
Proof.
  unfold sorted_reverse.
  rewrite length_rev, (Permutation_length (stable_sort_perm lt key _)), length_rev.
  apply length_seq.
Qed.

Lemma sorted_reverse_range n i :
  i ∈ sorted_reverse lt key (seq 0 n) → (i < n)%nat.
Proof.
  unfold sorted_reverse.
  rewrite list_elem_of_In, <- in_rev, <- list_elem_of_In, stable_sort_perm.
  rewrite list_elem_of_In, <- in_rev, <- list_elem_of_In. intros ?%elem_of_seq. lia.
Qed.

(** In [sorted(range(n), key=key, reverse=True)] no position has a smaller
    key than a later one, and of two positions with equal keys the smaller
    comes first. *)
Lemma sorted_reverse_ranked n p q i j :
  (p < q)%nat →
  sorted_reverse lt key (seq 0 n) !! p = Some i →
  sorted_reverse lt key (seq 0 n) !! q = Some j →
  lt (key i) (key j) = false ∧ (lt (key j) (key i) = false → (i < j)%nat).
Proof.
  intros Hpq Hp Hq.
  assert (Hs : StronglySorted (flip (placed_before lt key (λ a b, (b < a)%nat)))
                 (sorted_reverse lt key (seq 0 n))).
  { unfold sorted_reverse. apply (proj1 (StronglySorted_rev _ _)).
    apply stable_sort_sorted; [done|].
    apply (proj1 (StronglySorted_rev (λ a b, (a < b)%nat) _)), seq_sorted. }
  pose proof (StronglySorted_lookup_lt _ _ _ _ _ _ Hs Hpq Hp Hq) as Hij.
  destruct lt_order as (Hasym & _ & _).
  destruct Hij as [Hji|[Hij Hlt]]; simpl in *.
  - split; [by apply Hasym|congruence].
  - done.
Qed.

End SortedReverse.

(** ** Search *)

Section SearchFacts.
Context {F : Type} `{!Float32 F} `{!Embeddings F}.

Lemma np_array_matrix (d : nat) (rows : list (list F)) :
  rows ≠ [] → Forall (λ r, length r = d) rows → np_array rows = Returns (Arr2 rows).
Proof.
  intros Hne Hd. destruct rows as [|r rs]; [done|]. unfold np_array.
  apply Forall_cons in Hd as [Hr Hrs].
  rewrite (proj2 (forallb_forall _ rs)); [done|].
  intros r' Hr'%list_elem_of_In. rewrite Forall_forall in Hrs.
  apply bool_decide_eq_true_2. rewrite Hr. by apply Hrs.
Qed.

Lemma similarities_matrix (d : nat) (rows : list (list F)) (q : list F) :
  Forall (λ r, length r = d) rows → length q = d →
  similarities (Arr2 rows) q = Returns ((λ r, dot r q) <$> rows).
Proof.
  intros Hd Hq. unfold similarities.
  rewrite (proj2 (forallb_forall _ rows)); [done|].
  intros r Hr%list_elem_of_In. rewrite Forall_forall in Hd.
  apply bool_decide_eq_true_2. rewrite Hq. by apply Hd.
Qed.

Lemma normalize_length (v : list F) : length (normalize v) = length v.
Proof. unfold normalize. by rewrite length_fmap. Qed.

Lemma embed_query_item embed_one (d : nat) (query : text) :
  embeds embed_one d → item (embed_texts [query]) 0 = Returns (embed_one query).
Proof. intros [-> _]. done. Qed.

Lemma item_Some {A} (l : list A) i x : l !! i = Some x → item l i = Returns x.
Proof. intros H. unfold item. by rewrite H. Qed.

Lemma hits_returns (idx : index F) (sims : list F) (top_idx : list nat) :
  Forall (λ i, (i < length (chunks idx))%nat ∧ (i < length (metas idx))%nat) top_idx →
  ∃ out, hits idx sims top_idx = Returns out ∧ Forall2 (hit_of idx sims) top_idx out.
Proof.
  unfold hits. induction 1 as [|i top_idx [Hc Hm] _ (out & Hout & Hall)].
  - exists []. split; [done|constructor].
  - apply lookup_lt_is_Some_2 in Hc as [t Ht], Hm as [[src cid] Hmeta].
    exists (Hit (sims !!! i) t src cid :: out). split.
    + cbn [mapM]. rewrite (item_Some _ _ _ Ht), (item_Some _ _ _ Hmeta). cbn.
      rewrite Hout. done.
    + constructor; [|done]. done.
Qed.

Lemma top_indices_length (sims : list F) (k : Z) :
  0 ≤ k → len (top_indices sims k) = Z.min k (len sims).
Proof.
  intros Hk. unfold top_indices, len. rewrite slice_to_nonneg by done.
  rewrite length_take, sorted_reverse_length. lia.
Qed.

Lemma load_index_vecs (fs : store F) path ld :
  _load_index fs path = Returns ld → _vecs ld = normalize <$> vectors (data ld).
Proof.
  unfold _load_index. destruct (fs !! path) as [d0|]; [|done].
  unfold np_array. destruct (vectors d0) as [|r rs] eqn:Hv; [done|].
  destruct (forallb _ rs); [|done]. cbn. intros [= <-]. cbn. by rewrite Hv.
Qed.

Lemma hits_top_k (idx : index F) (sims : list F) (k : Z) :
  strict_weak_order flt → 0 ≤ k →
  length (chunks idx) = length sims → length (metas idx) = length sims →
  ∃ out, hits idx sims (top_indices sims k) = Returns out ∧ top_k_result idx sims k out.
Proof.
  intros Hord Hk Hc Hm.
  destruct (hits_returns idx sims (top_indices sims k)) as (out & Hout & Hall).
  { apply Forall_forall. intros i Hi. rewrite Hc, Hm.
    unfold top_indices in Hi. rewrite slice_to_nonneg in Hi by done.
    apply elem_of_take in Hi as (p & Hi & _).
    apply list_elem_of_lookup_2, sorted_reverse_range in Hi. done. }
  exists out. split; [done|]. split.
  - rewrite <- top_indices_length by done. unfold len. f_equal.
    symmetry. by eapply Forall2_length.
  - exists (top_indices sims k). split; [done|].
    intros p q i j Hpq Hp Hq. unfold top_indices in Hp, Hq.
    rewrite slice_to_nonneg in Hp, Hq by done.
    apply lookup_take_Some in Hp as [Hp _], Hq as [Hq _].
    by apply (sorted_reverse_ranked flt (λ i, sims !!! i) Hord (length sims) p q).
Qed.

(** C1: for an index that satisfies the index invariant (at least one
    vector, vectors of the dimension of the query embedding, as many chunk
    texts and metadata entries as vectors), an embeddings service that
    returns one vector per text, a total order on the scores and [k >= 0],
    [search] and, on the same index once loaded by the server, [rag_search]
    return [min(k, n)] results, with scores that never increase and, among
    equal scores, the entry at the smaller position first. *)
Theorem search_top_k (embed_one : text → list F) (d : nat) (idx : index F)
    (query : text) (k : Z) :
  strict_weak_order flt → embeds embed_one d → index_wf d idx → 0 ≤ k →
  (∃ out, search idx query k = Returns out
     ∧ len out = Z.min k (len (vectors idx))
     ∧ top_k_result idx ((λ r, dot r (normalize (embed_one query))) <$> vectors idx) k out)
  ∧ (∀ fs path ld, _load_index fs path = Returns ld → data ld = idx →
       ∃ out, rag_search (Some ld) query k = Returns out
         ∧ len out = Z.min k (len (vectors idx))
         ∧ top_k_result idx
             ((λ r, dot r (normalize (embed_one query))) <$> _vecs ld) k out).
Proof.
  intros Hord Hemb (Hne & Hd & Hc & Hm) Hk.
  assert (Hq : length (normalize (embed_one query)) = d).
  { rewrite normalize_length. apply Hemb. }
  split.
  - unfold search. rewrite (np_array_matrix d) by done. cbn [mbind outcome_bind].
    rewrite (embed_query_item embed_one d) by done. cbn [mbind outcome_bind].
    rewrite (similarities_matrix d) by done. cbn [mbind outcome_bind].
    destruct (hits_top_k idx ((λ r, dot r (normalize (embed_one query))) <$> vectors idx) k)
      as (out & Hout & Htop); [done|done|by rewrite length_fmap..|].
    exists out. split; [done|]. split; [|done].
    destruct Htop as [-> _]. unfold len. by rewrite length_fmap.
  - intros fs path ld Hload Hdata. unfold rag_search, _embed_query.
    rewrite (load_index_vecs _ _ _ Hload), Hdata.
    rewrite (embed_query_item embed_one d) by done. cbn [mbind outcome_bind mret outcome_ret].
    rewrite (similarities_matrix d); [|by apply Forall_fmap; eapply Forall_impl;
      [done|intros r Hr; simpl; by rewrite normalize_length]|done].
    cbn [mbind outcome_bind].
    destruct (hits_top_k idx
                ((λ r, dot r (normalize (embed_one query))) <$> (normalize <$> vectors idx)) k)
      as (out & Hout & Htop); [done|done|by rewrite !length_fmap..|].
    exists out. split; [done|]. split; [|done].
    destruct Htop as [-> _]. unfold len. by rewrite !length_fmap.
Qed.

End SearchFacts.

Lemma Z_ltb_order : strict_weak_order Z.ltb.
Proof. repeat split; intros; lia. Qed.

(** A search for two entries over the index of three. *)
Lemma search_top_k_witness :
  ∃ out, @search Z int_arith length_embeddings small_index (txt "ab") 2 = Returns out
    ∧ len out = Z.min 2 (len (vectors small_index)).
Proof.
  assert (Hemb : @embeds Z length_embeddings embed_length 2)
    by (split; intros; reflexivity).
  assert (Hwf : @index_wf Z 2 small_index)
    by (repeat split; [discriminate|repeat constructor]).
  destruct (@search_top_k Z int_arith length_embeddings embed_length 2 small_index
              (txt "ab") 2 Z_ltb_order Hemb Hwf ltac:(lia))
    as [(out & Hrun & Hlen & _) _].
  exists out. split; [exact Hrun|exact Hlen].
Defined.

(** ** Build *)

Section BuildFacts.
Context {F : Type} `{!Float32 F} `{!Embeddings F}.
Variable html_to_text : text → text.
Variable chunk_fn : text → outcome (list text).
Hypothesis chunk_fn_returns : ∀ s, ∃ cs, chunk_fn s = Returns cs ∧ cs ≠ [].

Lemma add_chunks_spec name (cs : list text) (acc : list text * list meta) :
  add_chunks name cs acc
  = (acc.1 ++ cs, acc.2 ++ imap (λ i _, Meta name (Z.of_nat i)) cs).
Proof.
  unfold add_chunks, enumerate.
  assert (Hgen : ∀ (g : nat → Z) acc,
    foldl (λ (acc : list text * list meta) (ic : Z * text),
             (acc.1 ++ [ic.2], acc.2 ++ [Meta name ic.1]))
          acc (imap (λ i x, (g i, x)) cs)
    = (acc.1 ++ cs, acc.2 ++ imap (λ i _, Meta name (g i)) cs)).
  { induction cs as [|c cs IH]; intros g [a1 a2]; simpl.
    - by rewrite !app_nil_r.
    - rewrite (IH (g ∘ S)). simpl. by rewrite <- !app_assoc. }
  apply Hgen.
Qed.

Lemma corpus_chunks_cons name html files :
  ∃ cs, chunk_fn (html_to_text html) = Returns cs ∧ cs ≠ []
    ∧ corpus_chunks html_to_text chunk_fn ((name, html) :: files)
      = imap (λ i c, Chunk c name (Z.of_nat i)) cs
          ++ corpus_chunks html_to_text chunk_fn files.
Proof.
  destruct (chunk_fn_returns (html_to_text html)) as (cs & Hcs & Hne).
  exists cs. split; [done|]. split; [done|].
  unfold corpus_chunks. simpl. by rewrite Hcs.
Qed.

Lemma collect_spec files (acc : list text * list meta) :
  collect html_to_text chunk_fn files acc
  = Returns (acc.1 ++ (text_of <$> corpus_chunks html_to_text chunk_fn files),
             acc.2 ++ ((λ c, Meta (source_name c) (chunk_index c))
                         <$> corpus_chunks html_to_text chunk_fn files)).
Proof.
  revert acc. induction files as [|[name html] files IH]; intros [a1 a2].
  - simpl. by rewrite !app_nil_r.
  - destruct (corpus_chunks_cons name html files) as (cs & Hcs & _ & ->).
    cbn [collect]. rewrite Hcs. cbn [mbind outcome_bind].
    rewrite IH, add_chunks_spec. cbn [fst snd].
    rewrite !fmap_app, !fmap_imap, <- !app_assoc. do 3 f_equal.
    change (imap (λ n, text_of ∘ (λ c, Chunk c name (Z.of_nat n))) cs)
      with (imap (const id) cs).
    by rewrite imap_const, list_fmap_id.
Qed.

Lemma corpus_chunks_nonempty files :
  files ≠ [] → corpus_chunks html_to_text chunk_fn files ≠ [].
Proof.
  destruct files as [|[name html] files]; [done|]. intros _.
  destruct (corpus_chunks_cons name html files) as (cs & _ & Hne & ->).
  by destruct cs.
Qed.

Lemma build_payload_spec embed_one (d : nat) no_files files :
  files ≠ [] → embeds embed_one d →
  ∃ idx, build_payload html_to_text chunk_fn no_files files = Returns idx
    ∧ index_of_chunks embed_one (corpus_chunks html_to_text chunk_fn files) idx
    ∧ corpus_chunks html_to_text chunk_fn files ≠ [].
Proof.
  intros Hfiles [Hemb Hdim]. unfold build_payload.
  destruct files as [|f files]; [done|].
  rewrite collect_spec. cbn [mbind outcome_bind fst snd app].
  pose proof (corpus_chunks_nonempty (f :: files) Hfiles) as Hne.
  set (cs := corpus_chunks html_to_text chunk_fn (f :: files)) in *.
  rewrite Hemb, (np_array_matrix d).
  - cbn. eexists. split; [done|]. split; [|done]. unfold index_of_chunks. cbn.
    by rewrite <- !list_fmap_compose.
  - by destruct cs.
  - apply Forall_fmap, Forall_fmap, Forall_forall. intros c _. apply Hdim.
Qed.

(** An index made of the chunks of a corpus that is not empty satisfies the
    invariant [search] relies on. *)
Lemma index_of_chunks_wf embed_one (d : nat) (cs : list chunk) (idx : index F) :
  embeds embed_one d → cs ≠ [] → index_of_chunks embed_one cs idx → index_wf d idx.
Proof.
  intros [_ Hdim] Hne (Hc & Hm & Hv). unfold index_wf.
  rewrite Hc, Hm, Hv, !length_fmap. repeat split; [by destruct cs|].
  apply Forall_fmap, Forall_forall. intros c _. simpl.
  by rewrite normalize_length.
Qed.

End BuildFacts.

Lemma rag_chunk_text_returns {char : Type} (s : list char) :
  ∃ cs, RagIndexChunk.chunk_text s
          RagIndexChunk.default_max_chars RagIndexChunk.default_overlap = Returns cs
    ∧ cs ≠ [].
Proof. by apply (chunk_text_returns _ rag_at_end_spec). Qed.

Lemma embed_chunk_text_returns {char : Type} (s : list char) :
  ∃ cs, EmbedTextsChunk.chunk_text s
          EmbedTextsChunk.default_max_chars EmbedTextsChunk.default_overlap = Returns cs
    ∧ cs ≠ [].
Proof. by apply (chunk_text_returns _ embed_at_end_spec). Qed.

Section BuildTheorems.
Context {F : Type} `{!Float32 F} `{!Embeddings F} `{!HtmlParser}.

(** C6: with no [.html] file found, [build_index_from_dir] raises (the
    [RuntimeError] that the specification calls [IndexBuildError]), returns
    no index and leaves the store of index files as it was, in both
    copies. *)
Theorem build_empty_fails (data_dir index_path : string) (fs : store F) :
  RagIndex.build_index_from_dir [] data_dir index_path fs
    = (Raises (RuntimeError ("No .html files found under " +:+ data_dir)), fs)
  ∧ EmbedTexts.build_index_from_dir [] data_dir index_path fs
    = (Raises (RuntimeError ("No .html files found in " +:+ data_dir)), fs).
Proof. split; reflexivity. Qed.

(** C7: for a document set that is not empty and an embeddings service that
    returns one vector per text, in order and of one dimension,
    [build_index_from_dir] returns and writes an index whose vectors, chunk
    texts and metadata have the same length, entry [i] of each belonging to
    chunk [i] of the corpus; in both copies. *)
Theorem build_index_parallel (embed_one : text → list F) (d : nat)
    (files : list (string * text)) (data_dir index_path : string) (fs : store F) :
  files ≠ [] → embeds embed_one d →
  (∃ idx, RagIndex.build_index_from_dir files data_dir index_path fs
            = (Returns idx, <[index_path := idx]> fs)
     ∧ length (vectors idx) = length (chunks idx)
     ∧ length (metas idx) = length (chunks idx)
     ∧ index_wf d idx
     ∧ index_of_chunks embed_one
         (corpus_chunks RagIndexText.html_to_text
            (λ s, RagIndexChunk.chunk_text s
                    RagIndexChunk.default_max_chars RagIndexChunk.default_overlap)
            files) idx)
  ∧ (∃ idx, EmbedTexts.build_index_from_dir files data_dir index_path fs
              = (Returns idx, <[index_path := idx]> fs)
       ∧ length (vectors idx) = length (chunks idx)
       ∧ length (metas idx) = length (chunks idx)
       ∧ index_wf d idx
       ∧ index_of_chunks embed_one
           (corpus_chunks HtmlToText.html_to_text
              (λ s, EmbedTextsChunk.chunk_text s
                      EmbedTextsChunk.default_max_chars EmbedTextsChunk.default_overlap)
              files) idx).
Proof.
  intros Hfiles Hemb. split.
  - destruct (build_payload_spec RagIndexText.html_to_text
                (λ s, RagIndexChunk.chunk_text s
                        RagIndexChunk.default_max_chars RagIndexChunk.default_overlap)
                rag_chunk_text_returns
                embed_one d ("No .html files found under " +:+ data_dir) files Hfiles Hemb)
      as (idx & Hrun & Hidx & Hne).
    exists idx. unfold RagIndex.build_index_from_dir. rewrite Hrun.
    split; [done|]. pose proof (index_of_chunks_wf _ _ _ _ Hemb Hne Hidx) as Hwf.
    destruct Hidx as (Hc & Hm & Hv).
    rewrite Hc, Hm, Hv, !length_fmap. done.
  - destruct (build_payload_spec HtmlToText.html_to_text
                (λ s, EmbedTextsChunk.chunk_text s
                        EmbedTextsChunk.default_max_chars EmbedTextsChunk.default_overlap)
                embed_chunk_text_returns
                embed_one d ("No .html files found in " +:+ data_dir) files Hfiles Hemb)
      as (idx & Hrun & Hidx & Hne).
    exists idx. unfold EmbedTexts.build_index_from_dir. rewrite Hrun.
    split; [done|]. pose proof (index_of_chunks_wf _ _ _ _ Hemb Hne Hidx) as Hwf.
    destruct Hidx as (Hc & Hm & Hv).
    rewrite Hc, Hm, Hv, !length_fmap. done.
Qed.

End BuildTheorems.

(** A build over one small file. *)
Lemma build_index_parallel_witness :
  ∃ idx, @RagIndex.build_index_from_dir Z int_arith length_embeddings one_text_node
           [("a.html"%string, txt "<p>hi</p>")] "data" "index.json" ∅
           = (Returns idx, <["index.json"%string := idx]> ∅)
    ∧ length (vectors idx) = length (chunks idx)
    ∧ length (metas idx) = length (chunks idx).
Proof.
  assert (Hemb : @embeds Z length_embeddings embed_length 2)
    by (split; intros; reflexivity).
  destruct (@build_index_parallel Z int_arith length_embeddings one_text_node
              embed_length 2 [("a.html"%string, txt "<p>hi</p>")] "data" "index.json" ∅
              ltac:(discriminate) Hemb)
    as [(idx & Hrun & Hv & Hm & _ & _) _].
  exists idx. split; [exact Hrun|split; [exact Hv|exact Hm]].
Defined.

(** ** Schema validator *)

Import Validator.

Section ValidatorFacts.
Context `{!Repr}.
Local Open Scope string_scope.
Local Open Scope list_scope.

Lemma sorted_difference_nil (a b : gset string) :
  sorted_difference a b = [] ↔ a ⊆ b.
Proof.
  unfold sorted_difference, sorted. split.
  - intros Hnil. pose proof (stable_sort_perm String.ltb id (elements (a ∖ b))) as Hp.
    rewrite Hnil in Hp. apply Permutation_nil, elements_empty_inv in Hp. set_solver.
  - intros Hsub. replace (a ∖ b) with (∅ : gset string) by set_solver.
    by rewrite elements_empty.
Qed.

Lemma paths_issue_nil label paths : paths_issue label paths = [] ↔ paths = [].
Proof. by destruct paths. Qed.

(** The shape checks report nothing exactly when the two sets of paths are
    the same. *)
Lemma shape_issues_nil (payload : json) :
  paths_issue "Missing keys/paths" (sorted_difference required_paths (got_paths payload))
    ++ paths_issue "Unexpected extra keys/paths"
         (sorted_difference (got_paths payload) required_paths) = []
  ↔ got_paths payload = required_paths.
Proof.
  rewrite app_nil, !paths_issue_nil, !sorted_difference_nil.
  generalize required_paths (got_paths payload). intros X Y. set_solver.
Qed.

Lemma part_issue_nil label part width s :
  part_issue label part width s = [] ↔ well_formed width s.
Proof.
  unfold part_issue, well_formed.
  destruct (bool_decide_reflect (String.length s = width)), (isdigit s); simpl;
    split; try done; intros [??]; done.
Qed.

(** A sub-field gives at most one issue. *)
Lemma part_issue_length label part width s :
  (length (part_issue label part width s) ≤ 1)%nat.
Proof. unfold part_issue. case_match; simpl; lia. Qed.

Lemma id_number_issues_nil (payload : list (string * json)) :
  id_number_issues payload = [] ↔ id_number_passes payload.
Proof.
  unfold id_number_issues, id_number_passes, well_formed.
  destruct (bool_decide_reflect (field_str payload "idNumber" = "")) as [->|Hne]; simpl.
  { split; [by left|done]. }
  destruct (isdigit _), (bool_decide_reflect (String.length (field_str payload "idNumber") = 9%nat));
    simpl; split; try done; try (by right); intros [?|[??]]; done.
Qed.

Lemma well_formed_nonempty width s : (0 < width)%nat → well_formed width s → s ≠ "".
Proof. intros ? [Hlen _] ->. simpl in Hlen. lia. Qed.

(** [check_date]: nothing when the three sub-fields read empty; otherwise
    the issues of the three sub-fields, each checked on its own. *)
Lemma check_date_cases (node : list (string * json)) label :
  (field_str node "day" = "" ∧ field_str node "month" = "" ∧ field_str node "year" = ""
   ∧ check_date node label = [])
  ∨ (¬ (field_str node "day" = "" ∧ field_str node "month" = "" ∧ field_str node "year" = "")
     ∧ check_date node label
       = part_issue label "day" 2 (field_str node "day")
           ++ part_issue label "month" 2 (field_str node "month")
           ++ part_issue label "year" 4 (field_str node "year")).
Proof.
  unfold check_date. simpl.
  destruct (bool_decide_reflect (field_str node "day" = "")) as [Hd|Hd];
    destruct (bool_decide_reflect (field_str node "month" = "")) as [Hm|Hm];
    destruct (bool_decide_reflect (field_str node "year" = "")) as [Hy|Hy];
    simpl; first [left; done|right; split; [intros (? & ? & ?); done|done]].
Qed.

Lemma check_date_nil (payload : list (string * json)) date_key :
  check_date (date_node payload date_key) date_key = [] ↔ date_group_passes payload date_key.
Proof.
  unfold date_group_passes.
  destruct (check_date_cases (date_node payload date_key) date_key)
    as [(Hd & Hm & Hy & ->)|[Hne ->]].
  - split; [by left|done].
  - rewrite !app_nil, !part_issue_nil. split; [by right|].
    intros [?|?]; done.
Qed.

Lemma format_issues_nil (payload : list (string * json)) :
  format_issues payload = []
  ↔ id_number_passes payload ∧ ∀ date_key, date_key ∈ date_keys → date_group_passes payload date_key.
Proof.
  unfold format_issues, date_keys. simpl.
  rewrite !app_nil, id_number_issues_nil, !check_date_nil.
  split.
  - intros (? & ? & ? & ? & ? & _). split; [done|].
    intros k Hk. repeat (apply elem_of_cons in Hk as [->|Hk]; [done|]).
    by apply elem_of_nil in Hk.
  - intros [? Hall]. repeat split; try done; apply Hall; set_solver.
Qed.

(** [validate_schema] returns no issue exactly when the paths [deep_keys]
    finds in the payload are those it finds in the template and none of the
    checks of the code fires. *)
Lemma validate_schema_nil (payload : json) :
  validate_schema payload = []
  ↔ got_paths payload = required_paths ∧ format_checks_pass payload.
Proof.
  unfold validate_schema. rewrite app_assoc, app_nil, shape_issues_nil.
  destruct payload; cbn [format_checks_pass];
    try (split; intros [Hpaths _]; (split; [exact Hpaths|first [exact I|reflexivity]])).
  rewrite format_issues_nil. reflexivity.
Qed.


Lemma field_str_absent (node : list (string * json)) k :
  get node k = None → field_str node k = "".
Proof. intros Hget. unfold field_str. by rewrite Hget. Qed.

Lemma part_issue_not_id label part width s :
  label ∈ date_keys → id_number_message ∉ part_issue label part width s.
Proof.
  intros Hl. unfold part_issue. case_match; [|apply not_elem_of_nil].
  intros Heq%list_elem_of_singleton. unfold date_keys in Hl.
  repeat (apply elem_of_cons in Hl as [->|Hl]; [discriminate Heq|]).
  by apply elem_of_nil in Hl.
Qed.

Lemma check_date_not_id (node : list (string * json)) label :
  label ∈ date_keys → id_number_message ∉ check_date node label.
Proof.
  intros Hl. destruct (check_date_cases node label) as [(_ & _ & _ & ->)|[_ ->]].
  - apply not_elem_of_nil.
  - rewrite !elem_of_app. intros [?|[?|?]]; by eapply part_issue_not_id.
Qed.

Lemma paths_issue_not_id label paths :
  label = "Missing keys/paths" ∨ label = "Unexpected extra keys/paths" →
  id_number_message ∉ paths_issue label paths.
Proof.
  intros Hl. destruct paths; [apply not_elem_of_nil|].
  intros Heq%list_elem_of_singleton. destruct Hl as [->| ->]; discriminate Heq.
Qed.

(** The [idNumber] message is in the result only when the [idNumber] check
    put it there. *)
Lemma id_message_from_id_check (payload : list (string * json)) :
  id_number_issues payload = [] → id_number_message ∉ validate_schema (JDict payload).
Proof.
  intros Hid. unfold validate_schema, format_issues. rewrite Hid.
  rewrite !elem_of_app. intros [Hin|[Hin|[Hin|Hin]]].
  - by eapply paths_issue_not_id; [left|].
  - by eapply paths_issue_not_id; [right|].
  - by apply elem_of_nil in Hin.
  - apply list_elem_of_In, in_flat_map in Hin
      as (label & Hl%list_elem_of_In & Hin%list_elem_of_In).
    by eapply check_date_not_id.
Qed.

(** C10: the value of [idNumber] is read through [str(... or "")]: the
    integer 123456789 reads as ["123456789"] and gives no [idNumber] issue;
    [None], [0] and the empty string read as the empty string, like a
    missing key, and give no [idNumber] issue either. *)
Theorem id_number_coerced (payload : list (string * json)) (v : json) :
  get payload "idNumber" = Some v →
  (v = JInt 123456789 →
     field_str payload "idNumber" = "123456789"
     ∧ id_number_issues payload = []
     ∧ id_number_message ∉ validate_schema (JDict payload))
  ∧ (v = JNull ∨ v = JInt 0 ∨ v = JStr "" →
     field_str payload "idNumber" = ""
     ∧ id_number_issues payload = []
     ∧ id_number_message ∉ validate_schema (JDict payload)).
Proof.
  intros Hget.
  assert (Hint : v = JInt 123456789 → field_str payload "idNumber" = "123456789").
  { intros ->. unfold field_str. by rewrite Hget. }
  assert (Hnone : v = JNull ∨ v = JInt 0 ∨ v = JStr "" → field_str payload "idNumber" = "").
  { intros [->|[->| ->]]; unfold field_str; by rewrite Hget. }
  split; intros Hv.
  - assert (Hid : id_number_issues payload = []).
    { unfold id_number_issues. by rewrite (Hint Hv). }
    split; [by apply Hint|]. split; [done|]. by apply id_message_from_id_check.
  - assert (Hid : id_number_issues payload = []).
    { unfold id_number_issues. by rewrite (Hnone Hv). }
    split; [by apply Hnone|]. split; [done|]. by apply id_message_from_id_check.
Qed.

(** C2, the code at a partial date: with the day given and the month and
    the year empty, [check_date] reports the month and the year, although
    each message allows the sub-field to be empty; the sibling check of
    [idNumber] skips an empty value. *)
Theorem check_date_partial_date :
  check_date partial_birth "dateOfBirth"
    = ["dateOfBirth.month must be 2 digits (or empty).";
       "dateOfBirth.year must be 4 digits (or empty)."]
  ∧ validate_schema (payload_with (JStr "") partial_birth)
    = ["dateOfBirth.month must be 2 digits (or empty).";
       "dateOfBirth.year must be 4 digits (or empty)."]
  ∧ id_number_issues [("idNumber", JStr "")] = [].
Proof. split; [|split]; vm_compute; reflexivity. Qed.

End ValidatorFacts.

(** A payload whose only key is [idNumber], an integer of nine digits. *)
Lemma id_number_coerced_witness :
  @field_str no_repr [("idNumber"%string, JInt 123456789)] "idNumber"%string = "123456789"%string
  ∧ @id_number_issues no_repr [("idNumber"%string, JInt 123456789)] = [].
Proof.
  destruct (@id_number_coerced no_repr [("idNumber"%string, JInt 123456789)]
              (JInt 123456789) eq_refl)
    as [Hint _].
  destruct (Hint eq_refl) as (Hstr & Hid & _). split; [exact Hstr|exact Hid].
Defined.


(** ** The validator against the specification *)

Section ValidatorSpecFacts.
Import Validator ValidatorSpec.
Context `{!Repr}.
Local Open Scope string_scope.
Local Open Scope list_scope.

(** Induction on a JSON value, the values of a mapping being smaller. *)
Lemma json_nested_ind (P : json → Prop) :
  (∀ v, (∀ d, v ≠ JDict d) → P v) →
  (∀ d, Forall (λ kv, P kv.2) d → P (JDict d)) →
  ∀ v, P v.
Proof.
  intros Hleaf Hdict. fix IH 1.
  intros [| | | | | |d]; try (apply Hleaf; intros ?; discriminate).
  apply Hdict. revert d. fix IHd 1.
  intros [|[k v] d]; constructor; [apply IH|apply IHd].
Qed.

Lemma string_app_assoc (a b c : string) : (a +:+ b) +:+ c = a +:+ (b +:+ c).
Proof.
  induction a as [|x a IH]; [reflexivity|].
  change (String x ((a +:+ b) +:+ c) = String x (a +:+ (b +:+ c))). by rewrite IH.
Qed.

Lemma deep_keys_at_dict d path :
  deep_keys_at (JDict d) path
  = flat_map (λ kv, deep_keys_at kv.2 (join_path path kv.1)) d.
Proof. reflexivity. Qed.

Lemma key_chains_dict d :
  key_chains (JDict d) = flat_map (λ kv, map (cons kv.1) (key_chains kv.2)) d.
Proof. reflexivity. Qed.

Lemma join_path_below path k : path ≠ "" → join_path path k = path +:+ "." +:+ k.
Proof. intros Hpath. unfold join_path. by rewrite bool_decide_eq_false_2. Qed.

Lemma join_path_root k : join_path "" k = k.
Proof. reflexivity. Qed.

Lemma app_not_empty (a b : string) : a ≠ "" → a +:+ b ≠ "".
Proof. by destruct a. Qed.

(** A chain below a path joins as the chain below the path with its first
    key. *)
Lemma dot_join_below path k chain :
  dot_join (path :: k :: chain) = dot_join ((path +:+ "." +:+ k) :: chain).
Proof.
  destruct chain as [|c chain]; [reflexivity|].
  change (dot_join (path :: k :: c :: chain))
    with (path +:+ "." +:+ (k +:+ "." +:+ dot_join (c :: chain))).
  change (dot_join ((path +:+ "." +:+ k) :: c :: chain))
    with ((path +:+ "." +:+ k) +:+ "." +:+ dot_join (c :: chain)).
  by rewrite !string_app_assoc.
Qed.

(** Below a path that is not empty, [deep_keys] joins every chain of keys
    with dots. *)
Lemma deep_keys_at_chains (v : json) :
  ∀ path, path ≠ "" →
    deep_keys_at v path = map (λ chain, dot_join (path :: chain)) (key_chains v).
Proof.
  induction v as [v Hleaf|d IH] using json_nested_ind; intros path Hpath.
  - destruct v as [| | | | | |d]; try reflexivity. by destruct (Hleaf d).
  - rewrite deep_keys_at_dict, key_chains_dict.
    induction IH as [|[k v] d IHv _ IHd]; [reflexivity|].
    cbn [flat_map fst snd]. rewrite map_app, <- IHd. f_equal.
    rewrite IHv by (rewrite join_path_below by done; by apply app_not_empty).
    rewrite map_map, join_path_below by done.
    apply map_ext. intros chain. symmetry. apply dot_join_below.
Qed.

(** With no empty key at the top, the paths of [deep_keys] are the chains of
    keys joined with dots. *)
Lemma deep_keys_chains (d : list (string * json)) :
  Forall (λ kv, kv.1 ≠ "") d → deep_keys d "" = map dot_join (key_chains (JDict d)).
Proof.
  intros Hd. rewrite key_chains_dict. unfold deep_keys.
  induction Hd as [|[k v] d Hk _ IHd]; [reflexivity|].
  cbn [flat_map fst snd]. rewrite map_app, <- IHd. f_equal.
  rewrite join_path_root, deep_keys_at_chains by done. by rewrite map_map.
Qed.

Lemma got_paths_spec (payload : json) :
  no_empty_top_key payload → got_paths payload = key_paths payload.
Proof.
  destruct payload as [| | | | | |d]; try reflexivity.
  intros Hd. unfold got_paths, key_paths. by rewrite deep_keys_chains.
Qed.

Lemma required_paths_spec : required_paths = key_paths (JDict REQUIRED_SCHEMA).
Proof.
  unfold required_paths, key_paths. rewrite deep_keys_chains; [reflexivity|].
  unfold REQUIRED_SCHEMA. repeat constructor; discriminate.
Qed.

(** The string the code reads from a field is the text of the field. *)
Lemma field_str_text (node : list (string * json)) k :
  field_str node k = field_text node k.
Proof.
  unfold field_str, field_text.
  destruct (get node k) as [[|[|]|n|f|s|[|x l]|[|kv items]]|]; try reflexivity.
  - cbn [default from_option id truthy]. by destruct (n =? 0)%Z.
  - cbn [default from_option id truthy]. by destruct (PrimFloat.eqb f 0).
  - cbn [default from_option id truthy].
    by destruct (bool_decide_reflect (s = "")) as [->|].
Qed.

Lemma well_formed_digits width s :
  (0 < width)%nat → well_formed width s ↔ digits isdigit_char width s.
Proof.
  intros Hw. unfold well_formed, digits, isdigit.
  destruct s as [|c s]; [|reflexivity].
  simpl. split; intros [Hlen _]; lia.
Qed.

Lemma id_number_passes_spec (d : list (string * json)) :
  id_number_passes d ↔ empty_or_digits isdigit_char 9 (field_text d "idNumber").
Proof.
  unfold id_number_passes, empty_or_digits.
  by rewrite field_str_text, well_formed_digits by lia.
Qed.

(** On a group that is not filled in part, the test of [check_date] and
    the check of each sub-field on its own agree. *)
Lemma date_group_passes_spec (d : list (string * json)) date_key :
  (field_text (nested_object d date_key) "day" = ""
   ∧ field_text (nested_object d date_key) "month" = ""
   ∧ field_text (nested_object d date_key) "year" = "")
  ∨ (field_text (nested_object d date_key) "day" ≠ ""
     ∧ field_text (nested_object d date_key) "month" ≠ ""
     ∧ field_text (nested_object d date_key) "year" ≠ "") →
  date_group_passes d date_key ↔ date_group_ok isdigit_char d date_key.
Proof.
  unfold date_group_passes, date_group_ok, empty_or_digits.
  change (date_node d date_key) with (nested_object d date_key). cbv zeta.
  rewrite !field_str_text, !well_formed_digits by lia.
  intros [(Hd & Hm & Hy)|(Hd & Hm & Hy)].
  - split; [|by left]. intros _. rewrite Hd, Hm, Hy. repeat split; by left.
  - split.
    + intros [(? & _)|(? & ? & ?)]; [done|]. repeat split; by right.
    + intros ([?|?] & [?|?] & [?|?]); try done. by right.
Qed.

Lemma format_checks_pass_spec (payload : json) :
  no_partial_date payload →
  format_checks_pass payload ↔ format_checks_ok isdigit_char payload.
Proof.
  destruct payload as [| | | | | |d]; try reflexivity.
  cbn [no_partial_date format_checks_pass format_checks_ok]. intros Hfull.
  rewrite id_number_passes_spec.
  change date_keys with date_groups.
  split; intros [Hid Hdates]; (split; [exact Hid|]); intros date_key Hk;
    apply (date_group_passes_spec d date_key (Hfull date_key Hk)), Hdates, Hk.
Qed.

(** C5, as amended: for a payload without an empty key at its top and
    without a date group filled in part, [validate_schema] returns no issue
    exactly when the set of the payload's dot-joined key paths is the set of
    the template's and the field-format checks pass: [idNumber] empty or
    nine digits, every date sub-field empty or of its width in digits, a
    digit being what [str.isdigit] accepts. *)
Theorem validate_schema_empty_iff (payload : json) :
  no_empty_top_key payload → no_partial_date payload →
  validate_schema payload = [] ↔ valid isdigit_char payload.
Proof.
  intros Hkeys Hfull. unfold valid.
  rewrite validate_schema_nil, (got_paths_spec payload Hkeys), required_paths_spec.
  by rewrite (format_checks_pass_spec payload Hfull).
Qed.

End ValidatorSpecFacts.

(** C5, the claim as it is written, with ASCII digits: an [idNumber] of
    eight ASCII digits and a superscript two passes [validate_schema], whose
    [isdigit] takes the superscript for a digit, and fails the check of the
    specification. *)
Lemma validate_schema_ascii_digits_refuted :
  ¬ (@Validator.validate_schema Validator.no_repr ValidatorSpec.superscript_id = []
     ↔ @ValidatorSpec.valid Validator.no_repr ValidatorSpec.ascii_digit
         ValidatorSpec.superscript_id).
Proof.
  intros [Himp _].
  assert (Hnil : @Validator.validate_schema Validator.no_repr ValidatorSpec.superscript_id = [])
    by (vm_compute; reflexivity).
  destruct (Himp Hnil) as [_ [Hid _]].
  destruct Hid as [Hid|[_ Hid]]; vm_compute in Hid; discriminate Hid.
Qed.

(** The payload of the required shape with every leaf empty. *)
Lemma validate_schema_empty_iff_witness :
  @Validator.validate_schema Validator.no_repr
    (Validator.payload_with (Validator.JStr "") Validator.date_fields) = []
  ↔ @ValidatorSpec.valid Validator.no_repr isdigit_char
      (Validator.payload_with (Validator.JStr "") Validator.date_fields).
Proof.
  apply (@validate_schema_empty_iff Validator.no_repr).
  - vm_compute. repeat constructor; discriminate.
  - intros date_key Hk.
    repeat (apply elem_of_cons in Hk as [->|Hk];
            [left; repeat split; vm_compute; reflexivity|]).
    by apply elem_of_nil in Hk.
Defined.

(** ** TextNormalizer *)

Section NewlineRuns.
Implicit Types s l : text.

Lemma no_newline_run_cons a l :
  no_newline_run (a :: l) ↔ ¬ (a = LF ∧ head l = Some LF) ∧ no_newline_run l.
Proof.
  unfold no_newline_run. rewrite head_lookup. split.
  - intros Hrun. split; [|intros i; apply (Hrun (S i))].
    intros [-> Hhd]. by apply (Hrun 0%nat).
  - intros [Hhd Hrun] [|i]; [|apply Hrun].
    simpl. intros [[= ->] ?]. by apply Hhd.
Qed.

Lemma no_newline_run_nil : no_newline_run [].
Proof. intros i [? _]. done. Qed.

Lemma no_newline_run_app l s :
  Forall (λ c, c ≠ LF) l → no_newline_run s → no_newline_run (l ++ s).
Proof.
  induction 1 as [|a l Ha _ IH]; intros Hs; [done|].
  simpl. apply no_newline_run_cons. split; [by intros [? _]|by apply IH].
Qed.

Lemma flush_run_cases run :
  flush_run 2 [LF] run = [] ∨ flush_run 2 [LF] run = [LF].
Proof. destruct run as [|[|run]]; [by left|by right|by right]. Qed.

Lemma sub_newlines_go_no_run run s :
  no_newline_run (sub_newlines_go 2 [LF] run s).
Proof.
  revert run. induction s as [|c s IH]; intros run; cbn [sub_newlines_go].
  - destruct (flush_run_cases run) as [-> | ->]; [apply no_newline_run_nil|].
    apply no_newline_run_cons. split; [by intros [_ ?]|apply no_newline_run_nil].
  - destruct (bool_decide_reflect (c = LF)) as [->|Hc]; [apply IH|].
    assert (Hrest : no_newline_run (c :: sub_newlines_go 2 [LF] 0 s)).
    { apply no_newline_run_cons. split; [by intros [? _]|apply IH]. }
    destruct (flush_run_cases run) as [-> | ->]; [done|].
    simpl. apply no_newline_run_cons. split; [|done].
    intros [_ [= ->]]. done.
Qed.

(** After [re.sub(r"\n{2,}", "\n", text)] no two line feeds are in a row. *)
Lemma sub_newlines_no_run s : no_newline_run (sub_newlines 2 [LF] s).
Proof. apply sub_newlines_go_no_run. Qed.

End NewlineRuns.

Section StripFacts.
Implicit Types s l : text.

Lemma lstrip_nil l : lstrip l = [] ↔ all_space l.
Proof.
  unfold all_space. induction l as [|c l IH]; simpl; [by split; [constructor|]|].
  destruct (isspace c) eqn:Hc.
  - rewrite IH. split; [by constructor|by intros [_ ?]%Forall_cons].
  - split; [done|]. intros [? _]%Forall_cons. congruence.
Qed.

Lemma lstrip_Forall (P : ascii → Prop) l : Forall P l → Forall P (lstrip l).
Proof.
  induction 1 as [|c l Hc Hl IH]; simpl; [constructor|].
  destruct (isspace c); [done|by constructor].
Qed.

Lemma rev_Forall (P : ascii → Prop) l : Forall P (rev l) ↔ Forall P l.
Proof.
  rewrite !Forall_forall. split; intros H c Hc; apply H.
  - by rewrite list_elem_of_In, <- in_rev, <- list_elem_of_In.
  - by rewrite list_elem_of_In, in_rev, <- list_elem_of_In.
Qed.

Lemma strip_Forall (P : ascii → Prop) l : Forall P l → Forall P (strip l).
Proof.
  intros Hl. unfold strip.
  by apply (proj2 (rev_Forall _ _)), lstrip_Forall, (proj2 (rev_Forall _ _)), lstrip_Forall.
Qed.

Lemma all_space_lstrip l : all_space (lstrip l) ↔ all_space l.
Proof.
  split; [|apply lstrip_Forall]. unfold all_space.
  induction l as [|c l IH]; simpl; [done|].
  destruct (isspace c) eqn:Hc; [|done]. intros ?. constructor; [done|by apply IH].
Qed.

Lemma rev_nil_iff l : rev l = [] ↔ l = [].
Proof.
  split; [|by intros ->]. intros H. apply (f_equal (@length _)) in H.
  rewrite length_rev in H. by destruct l.
Qed.

Lemma strip_nil l : strip l = [] ↔ all_space l.
Proof.
  unfold strip. rewrite rev_nil_iff, lstrip_nil. unfold all_space.
  rewrite rev_Forall. apply all_space_lstrip.
Qed.

(** A line that is not empty once stripped stays so when stripped again. *)
Lemma strip_strip_nonempty l : strip l ≠ [] → strip (strip l) ≠ [].
Proof.
  rewrite !strip_nil. intros Hl Hs. apply Hl.
  unfold strip in Hs.
  apply (proj1 (rev_Forall _ _)), (proj1 (all_space_lstrip _)) in Hs.
  by apply (proj1 (rev_Forall _ _)), (proj1 (all_space_lstrip _)) in Hs.
Qed.

End StripFacts.

Section LineFacts.
Implicit Types s l : text.

Lemma splitlines_go_no_break s after_cr cur :
  Forall (λ c, is_linebreak c = false) cur →
  Forall (Forall (λ c, is_linebreak c = false)) (splitlines_go after_cr cur s).
Proof.
  revert after_cr cur. induction s as [|c s IH]; intros after_cr cur Hcur; simpl.
  - destruct cur; [constructor|]. constructor; [done|constructor].
  - destruct (after_cr && bool_decide (c = LF)); [by apply IH|].
    destruct (is_linebreak c) eqn:Hc.
    + constructor; [done|]. apply IH. constructor.
    + apply IH. apply Forall_app. split; [done|]. by repeat constructor.
Qed.

Lemma splitlines_go_app cur l s :
  Forall (λ c, is_linebreak c = false) l →
  splitlines_go false cur (l ++ s) = splitlines_go false (cur ++ l) s.
Proof.
  intros Hl. revert cur. induction Hl as [|c l Hc _ IH]; intros cur; simpl.
  - by rewrite app_nil_r.
  - rewrite Hc, IH, <- app_assoc. done.
Qed.

Lemma clean_head l : clean l → ∃ c, head l = Some c ∧ c ≠ LF.
Proof.
  intros [Hne Hl]. destruct l as [|c l]; [done|]. exists c. split; [done|].
  apply Forall_inv in Hl. intros ->. done.
Qed.

Lemma clean_no_lf l : clean l → Forall (λ c, c ≠ LF) l.
Proof.
  intros [_ Hl]. eapply Forall_impl; [done|]. simpl. intros c Hc ->. done.
Qed.

Lemma join_head p ps : p ≠ [] → head (join [LF] (p :: ps)) = head p.
Proof. destruct p; [done|]. by destruct ps. Qed.

Lemma join_cons2 p q ps : join [LF] (p :: q :: ps) = p ++ LF :: join [LF] (q :: ps).
Proof. done. Qed.

Lemma join_clean_no_run ls : Forall clean ls → no_newline_run (join [LF] ls).
Proof.
  induction 1 as [|p ls Hp Hls IH]; [apply no_newline_run_nil|].
  destruct ls as [|q ls].
  - simpl. rewrite <- (app_nil_r p).
    apply no_newline_run_app; [by apply clean_no_lf|apply no_newline_run_nil].
  - rewrite join_cons2. apply no_newline_run_app; [by apply clean_no_lf|].
    apply no_newline_run_cons. split; [|done].
    apply Forall_inv in Hls. destruct (clean_head q Hls) as (c & Hc & Hne).
    rewrite join_head, Hc by apply Hls. intros [_ [= ->]]. done.
Qed.

Lemma splitlines_join_clean ls : Forall clean ls → splitlines (join [LF] ls) = ls.
Proof.
  unfold splitlines. induction 1 as [|p ls [Hne Hp] Hls IH]; [done|].
  destruct ls as [|q ls].
  - pose proof (splitlines_go_app [] p [] Hp) as Heq. rewrite app_nil_r in Heq.
    simpl. rewrite Heq. simpl. by destruct p.
  - rewrite join_cons2, splitlines_go_app by done.
    cbn [splitlines_go andb app]. replace (is_linebreak LF) with true by done.
    replace (bool_decide (LF = CR)) with false by done. by rewrite IH.
Qed.

(** The lines the final pass of rag_index.py keeps. *)
Lemma kept_lines_clean s :
  Forall clean (map strip (List.filter (λ ln, nonempty (strip ln)) (splitlines s)))
  ∧ Forall (λ ln, strip ln ≠ [])
      (map strip (List.filter (λ ln, nonempty (strip ln)) (splitlines s))).
Proof.
  rewrite !Forall_forall.
  assert (Hin : ∀ l', l' ∈ map strip (List.filter (λ ln, nonempty (strip ln)) (splitlines s)) →
                ∃ ln, l' = strip ln ∧ strip ln ≠ [] ∧ Forall (λ c, is_linebreak c = false) ln).
  { intros l' (ln & <- & Hln)%list_elem_of_In%in_map_iff.
    apply filter_In in Hln as [Hln Hne]. exists ln. split; [done|]. split.
    - by destruct (strip ln).
    - pose proof (splitlines_go_no_break s false [] ltac:(constructor)) as Hall.
      rewrite Forall_forall in Hall. by apply Hall, list_elem_of_In. }
  split; intros l' (ln & -> & Hne & Hbr)%Hin.
  - split; [done|by apply strip_Forall].
  - by apply strip_strip_nonempty.
Qed.

End LineFacts.

(** X24: the [html_to_text] of rag_index.py returns a text without two line
    feeds in a row and without a line that is empty once stripped, whatever
    the document. *)
Lemma rag_html_to_text_normalised (soup : node) :
  no_newline_run (RagIndexText.html_to_text_soup soup)
  ∧ no_blank_line (RagIndexText.html_to_text_soup soup).
Proof.
  unfold RagIndexText.html_to_text_soup, no_blank_line. cbv zeta.
  destruct (kept_lines_clean (sub_newlines 3 [LF; LF] (soup_text soup))) as [Hclean Hne].
  split; [by apply join_clean_no_run|].
  rewrite splitlines_join_clean by done. by apply Forall_forall.
Qed.

(** X25: the [html_to_text] of html_to_text.py returns a text without two
    line feeds in a row, whatever the document. *)
Lemma html_to_text_no_newline_run (soup : node) :
  no_newline_run (HtmlToText.html_to_text_soup soup).
Proof. apply sub_newlines_no_run. Qed.

(** C8, the code at a text node with a blank line: html_to_text.py returns
    the text with its line of one space, which is empty once stripped;
    rag_index.py drops that line. *)
Theorem html_to_text_keeps_blank_line :
  HtmlToText.html_to_text_soup blank_line_soup
    = txt "a" ++ [LF] ++ txt " " ++ [LF] ++ txt "b"
  ∧ ¬ no_blank_line (HtmlToText.html_to_text_soup blank_line_soup)
  ∧ RagIndexText.html_to_text_soup blank_line_soup = txt "a" ++ [LF] ++ txt "b".
Proof.
  split; [vm_compute; reflexivity|]. split; [|vm_compute; reflexivity].
  intros Hno. apply (Hno (txt " ")); [|vm_compute; reflexivity].
  vm_compute. right. left.
Qed.


(** * Further properties *)

(** ** Chunker *)

Section ChunkerMore.
Context {char : Type}.

Lemma chunk_loop_copies_agree fuel (s : list char) max_chars overlap start chunks :
  Chunker.chunk_loop RagIndexChunk.at_end fuel s max_chars overlap start chunks
  = Chunker.chunk_loop EmbedTextsChunk.at_end fuel s max_chars overlap start chunks.
Proof.
  revert start chunks. induction fuel as [|fuel IH]; intros start chunks; [done|].
  cbn [Chunker.chunk_loop]. destruct (start <? len s); [|done].
  rewrite rag_at_end_spec, embed_at_end_spec by lia.
  destruct (bool_decide _); [done|apply IH].
Qed.

(** X1: the two copies of [chunk_text] (rag_index.py breaks on
    [end >= len(text)], embed_texts.py on [end == len(text)]) compute the same
    result on every text, for all parameters and every bound on the loop. *)
Theorem chunk_text_copies_agree fuel (s : list char) (max_chars overlap : Z) :
  RagIndexChunk.chunk_text_fuel fuel s max_chars overlap
  = EmbedTextsChunk.chunk_text_fuel fuel s max_chars overlap.
Proof.
  unfold RagIndexChunk.chunk_text_fuel, EmbedTextsChunk.chunk_text_fuel,
    Chunker.chunk_text_fuel.
  destruct (len s <=? max_chars); [done|apply chunk_loop_copies_agree].
Qed.

Variables (max_chars overlap : Z).
Hypothesis overlap_ok : 0 ≤ overlap < max_chars.

Lemma chain_sizes n start ws :
  Chunker.chain n max_chars overlap start ws → 0 ≤ start < n →
  Forall (λ w, 0 ≤ w.1 ∧ 0 < w.2 - w.1 ≤ max_chars ∧ w.2 ≤ n) ws
  ∧ ∀ i w, ws !! i = Some w → (S i < length ws)%nat → w.2 - w.1 = max_chars.
Proof.
  induction 1 as [start|start ws Hlt Hch IH]; intros Hs.
  - split; [repeat constructor; simpl; lia|].
    intros i w _ Hi. simpl in Hi. lia.
  - destruct IH as [IHall IHfull]; [lia|]. split.
    + constructor; [simpl; lia|done].
    + intros [|i] w Hw Hi; simpl in *.
      * injection Hw as <-. simpl. lia.
      * apply (IHfull i); [done|lia].
Qed.

Lemma windows_of_sizes n ws :
  0 ≤ n → Chunker.windows_of max_chars overlap n ws →
  Forall (λ w, 0 ≤ w.1 ∧ w.1 ≤ w.2 ∧ w.2 - w.1 ≤ max_chars ∧ w.2 ≤ n) ws
  ∧ (0 < n → Forall (λ w, w.1 < w.2) ws)
  ∧ ∀ i w, ws !! i = Some w → (S i < length ws)%nat → w.2 - w.1 = max_chars.
Proof.
  intros Hn [[Hle ->]|[Hlt Hch]].
  - split; [repeat constructor; simpl; lia|]. split.
    + intros ?. repeat constructor. simpl. lia.
    + intros i w _ Hi. simpl in Hi. lia.
  - destruct (chain_sizes n 0 ws Hch) as [Hall Hfull]; [lia|]. split; [|split; [|done]].
    + eapply Forall_impl; [done|]. simpl. intros; lia.
    + intros _. eapply Forall_impl; [done|]. simpl. intros; lia.
Qed.

Lemma window_slice_length (s : list char) (w : Z * Z) :
  0 ≤ w.1 → w.1 ≤ w.2 → w.2 ≤ len s → len (Chunker.window_slice s w) = w.2 - w.1.
Proof. intros. unfold Chunker.window_slice. by apply slice_length. Qed.

(** The chunks of the windows of a call read back to the text. *)
Lemma chain_unchunk (s : list char) start ws :
  Chunker.chain (len s) max_chars overlap start ws → 0 ≤ start < len s →
  Chunker.unchunk overlap (Chunker.window_slice s <$> ws) = drop (Z.to_nat start) s.
Proof.
  induction 1 as [start|start ws Hlt Hch IH]; intros Hs.
  - simpl. rewrite app_nil_r. unfold Chunker.window_slice. simpl.
    rewrite slice_in_range by lia. unfold len. by rewrite Nat2Z.id, firstn_all.
  - specialize (IH ltac:(lia)).
    destruct (chain_head _ _ _ _ _ Hch) as (e & ws' & -> & He).
    cbn [Chunker.unchunk fmap list_fmap concat] in *.
    assert (Hlen : len (Chunker.window_slice s (start + max_chars - overlap, e))
                   = e - (start + max_chars - overlap)).
    { apply window_slice_length; simpl; lia. }
    rewrite <- drop_app_le by (unfold len in Hlen; lia).
    rewrite IH, drop_drop.
    unfold Chunker.window_slice. simpl. rewrite slice_in_range by lia.
    replace (Z.to_nat (start + max_chars - overlap) + Z.to_nat overlap)%nat
      with (Z.to_nat (start + max_chars)) by lia.
    rewrite <- drop_app_le by (rewrite length_take; unfold len in *; lia).
    by rewrite take_drop.
Qed.

Lemma chain_count n start ws :
  Chunker.chain n max_chars overlap start ws → 0 ≤ start < n →
  n - start - max_chars ≤ (len ws - 1) * (max_chars - overlap)
  ∧ (1 < len ws → (len ws - 2) * (max_chars - overlap) < n - start - max_chars).
Proof.
  induction 1 as [start|start ws Hlt Hch IH]; intros Hs.
  - unfold len. simpl. lia.
  - destruct IH as [IH1 IH2]; [lia|].
    assert (Hpos : 0 < len ws).
    { destruct (chain_head _ _ _ _ _ Hch) as (? & ? & -> & _). unfold len. simpl. lia. }
    replace (len ((start, start + max_chars) :: ws)) with (len ws + 1)
      by (unfold len; simpl; lia).
    split; [lia|]. intros _.
    destruct (Z.eq_dec (len ws) 1) as [->|]; [lia|].
    specialize (IH2 ltac:(lia)). lia.
Qed.

(** Window [i] of a chain starts [i] steps of [max_chars - overlap] after the
    first and ends [max_chars] later, or at the end of the text. *)
Lemma chain_nth n start ws :
  Chunker.chain n max_chars overlap start ws →
  ∀ i w, ws !! i = Some w →
    w.1 = start + Z.of_nat i * (max_chars - overlap)
    ∧ w.2 = Z.min (w.1 + max_chars) n.
Proof.
  induction 1 as [start|start ws Hlt Hch IH]; intros [|i] w Hw; simpl in Hw.
  - injection Hw as <-. simpl. lia.
  - done.
  - injection Hw as <-. simpl. lia.
  - destruct (IH i w Hw) as [H1 H2]. lia.
Qed.

(** Both copies return the chunks of the windows of the call. *)
Lemma chunk_text_windows_both (s : list char) :
  ∃ ws, Chunker.windows_of max_chars overlap (len s) ws
    ∧ RagIndexChunk.chunk_text s max_chars overlap
      = Returns (Chunker.window_slice s <$> ws)
    ∧ EmbedTextsChunk.chunk_text s max_chars overlap
      = Returns (Chunker.window_slice s <$> ws).
Proof.
  destruct (chunk_text_fuel_windows _ rag_at_end_spec max_chars overlap overlap_ok s)
    as (ws & Hws & Hrag).
  destruct (chunk_text_fuel_windows _ embed_at_end_spec max_chars overlap overlap_ok s)
    as (ws' & Hws' & Hemb).
  rewrite <- (windows_of_functional _ _ _ _ _ overlap_ok Hws Hws') in Hemb.
  exists ws. split; [done|].
  split; [apply Hrag|apply Hemb]; unfold Chunker.default_fuel; lia.
Qed.

End ChunkerMore.

(** X2: when [0 <= overlap < max_chars], [chunk_text] returns at least one
    chunk, no chunk is longer than [max_chars], every chunk before the last
    has exactly [max_chars] characters, and no chunk of a text that is not
    empty is empty; in both copies. *)
Theorem chunk_text_chunk_sizes {char : Type} (s : list char) (max_chars overlap : Z) :
  0 ≤ overlap → overlap < max_chars →
  ∃ chunks,
    RagIndexChunk.chunk_text s max_chars overlap = Returns chunks
    ∧ EmbedTextsChunk.chunk_text s max_chars overlap = Returns chunks
    ∧ chunks ≠ []
    ∧ Forall (λ c, len c ≤ max_chars) chunks
    ∧ (s ≠ [] → Forall (λ c, c ≠ []) chunks)
    ∧ ∀ i c, chunks !! i = Some c → (S i < length chunks)%nat → len c = max_chars.
Proof.
  intros Hov1 Hov2. assert (Hov : 0 ≤ overlap < max_chars) by lia.
  destruct (chunk_text_windows_both max_chars overlap Hov s) as (ws & Hws & Hrag & Hemb).
  destruct (windows_of_sizes max_chars overlap Hov (len s) ws ltac:(unfold len; lia) Hws)
    as (Hall & Hpos & Hfull).
  exists (Chunker.window_slice s <$> ws).
  split; [done|]. split; [done|]. split; [|split; [|split]].
  - apply (windows_of_nonempty max_chars overlap) in Hws. by destruct ws.
  - apply Forall_fmap. eapply Forall_impl; [done|]. simpl. intros w (? & ? & ? & ?).
    rewrite window_slice_length by done. lia.
  - intros Hs. apply Forall_fmap.
    assert (0 < len s) by (destruct s; [done|unfold len; simpl; lia]).
    pose proof (Hpos ltac:(done)) as Hpos'. rewrite Forall_forall in Hall, Hpos' |- *.
    intros w Hw. destruct (Hall w Hw) as (? & ? & ? & ?). specialize (Hpos' w Hw).
    simpl. intros Hnil. apply (f_equal len) in Hnil.
    rewrite window_slice_length in Hnil by done. unfold len in Hnil. simpl in Hnil. lia.
  - intros i c (w & -> & Hw)%list_lookup_fmap_Some Hi. rewrite length_fmap in Hi.
    rewrite Forall_forall in Hall.
    destruct (Hall w) as (? & ? & ? & ?); [by eapply list_elem_of_lookup_2|].
    rewrite window_slice_length by done. by apply (Hfull i).
Qed.

(** The text ["abcdefghij"] in windows of four that overlap by one. *)
Lemma chunk_text_chunk_sizes_witness :
  ∃ chunks,
    RagIndexChunk.chunk_text (txt "abcdefghij") 4 1 = Returns chunks
    ∧ Forall (λ c, len c ≤ 4) chunks.
Proof.
  destruct (chunk_text_chunk_sizes (txt "abcdefghij") 4 1 ltac:(lia) ltac:(lia))
    as (chunks & Hrun & _ & _ & Hall & _).
  exists chunks. split; [exact Hrun|exact Hall].
Defined.

(** X3: when [0 <= overlap < max_chars], the text is read back from the
    chunks [chunk_text] returns: the first chunk followed by every other
    chunk without its first [overlap] characters is the text; in both
    copies. *)
Theorem chunk_text_unchunk {char : Type} (s : list char) (max_chars overlap : Z) :
  0 ≤ overlap → overlap < max_chars →
  ∃ chunks,
    RagIndexChunk.chunk_text s max_chars overlap = Returns chunks
    ∧ EmbedTextsChunk.chunk_text s max_chars overlap = Returns chunks
    ∧ Chunker.unchunk overlap chunks = s.
Proof.
  intros Hov1 Hov2. assert (Hov : 0 ≤ overlap < max_chars) by lia.
  destruct (chunk_text_windows_both max_chars overlap Hov s) as (ws & Hws & Hrag & Hemb).
  exists (Chunker.window_slice s <$> ws). split; [done|]. split; [done|].
  destruct Hws as [[_ ->]|[Hlong Hch]].
  - simpl. unfold Chunker.window_slice. simpl. by rewrite app_nil_r, slice_whole.
  - rewrite (chain_unchunk max_chars overlap Hov s 0 ws Hch) by lia. done.
Qed.

Lemma chunk_text_unchunk_witness :
  ∃ chunks,
    RagIndexChunk.chunk_text (txt "abcdefghij") 4 1 = Returns chunks
    ∧ Chunker.unchunk 1 chunks = txt "abcdefghij".
Proof.
  destruct (chunk_text_unchunk (txt "abcdefghij") 4 1 ltac:(lia) ltac:(lia))
    as (chunks & Hrun & _ & Hback).
  exists chunks. split; [exact Hrun|exact Hback].
Defined.

(** X4: when [0 <= overlap < max_chars] and the text is longer than
    [max_chars], [chunk_text] returns one chunk more than the number of steps
    of [max_chars - overlap] needed to cover [len(text) - max_chars]
    characters, that is [1 + ceil((len(text) - max_chars) / (max_chars - overlap))]
    chunks; in both copies. *)
Theorem chunk_text_count {char : Type} (s : list char) (max_chars overlap : Z) :
  0 ≤ overlap → overlap < max_chars → max_chars < len s →
  ∃ chunks,
    RagIndexChunk.chunk_text s max_chars overlap = Returns chunks
    ∧ EmbedTextsChunk.chunk_text s max_chars overlap = Returns chunks
    ∧ len chunks
      = 1 + (len s - max_chars + (max_chars - overlap) - 1) / (max_chars - overlap).
Proof.
  intros Hov1 Hov2 Hlong. assert (Hov : 0 ≤ overlap < max_chars) by lia.
  destruct (chunk_text_windows_both max_chars overlap Hov s) as (ws & Hws & Hrag & Hemb).
  exists (Chunker.window_slice s <$> ws). split; [done|]. split; [done|].
  destruct Hws as [[? _]|[_ Hch]]; [lia|].
  destruct (chain_count max_chars overlap Hov (len s) 0 ws Hch) as [Hup Hlow]; [lia|].
  replace (len (Chunker.window_slice s <$> ws)) with (len ws)
    by (unfold len; by rewrite length_fmap).
  assert (1 < len ws).
  { destruct (Z.le_gt_cases (len ws) 1); [|done]. nia. }
  specialize (Hlow ltac:(done)).
  assert ((len s - max_chars + (max_chars - overlap) - 1) / (max_chars - overlap)
          = len ws - 1); [|lia].
  symmetry. apply (Z.div_unique _ _ _
    (len s - max_chars + (max_chars - overlap) - 1 - (max_chars - overlap) * (len ws - 1)));
    [left|]; lia.
Qed.

Lemma chunk_text_count_witness :
  ∃ chunks,
    RagIndexChunk.chunk_text (txt "abcdefghij") 4 1 = Returns chunks
    ∧ len chunks = 3.
Proof.
  destruct (chunk_text_count (txt "abcdefghij") 4 1
              ltac:(lia) ltac:(lia) ltac:(vm_compute; reflexivity))
    as (chunks & Hrun & _ & Hcount).
  exists chunks. split; [exact Hrun|exact Hcount].
Defined.


(** X26: when [0 <= overlap < max_chars], chunk [i] of the result of
    [chunk_text] is the slice of the text that starts at
    [i * (max_chars - overlap)] and is [max_chars] long; in both copies. *)
Theorem chunk_text_nth {char : Type} (s : list char) (max_chars overlap : Z) :
  0 ≤ overlap → overlap < max_chars →
  ∃ chunks,
    RagIndexChunk.chunk_text s max_chars overlap = Returns chunks
    ∧ EmbedTextsChunk.chunk_text s max_chars overlap = Returns chunks
    ∧ ∀ i c, chunks !! i = Some c →
        c = slice s (Z.of_nat i * (max_chars - overlap))
                    (Z.of_nat i * (max_chars - overlap) + max_chars).
Proof.
  intros Hov1 Hov2. assert (Hov : 0 ≤ overlap < max_chars) by lia.
  destruct (chunk_text_windows_both max_chars overlap Hov s) as (ws & Hws & Hrag & Hemb).
  exists (Chunker.window_slice s <$> ws). split; [done|]. split; [done|].
  intros i c (w & -> & Hw)%list_lookup_fmap_Some.
  assert (Hw' : w.1 = Z.of_nat i * (max_chars - overlap)
                ∧ w.2 = Z.min (w.1 + max_chars) (len s)).
  { destruct Hws as [[Hshort ->]|[Hlong Hch]].
    - destruct i as [|i]; [|done]. injection Hw as <-. simpl. lia.
    - destruct (chain_nth max_chars overlap (len s) 0 ws Hch i w Hw) as [H1 H2].
      split; [lia|done]. }
  destruct Hw' as [H1 H2]. unfold Chunker.window_slice, slice.
  rewrite H2, H1. f_equal. f_equal. f_equal. unfold slice_bound.
  assert (0 ≤ len s) by (unfold len; lia).
  assert (0 ≤ Z.of_nat i * (max_chars - overlap)) by nia.
  destruct (Z.ltb_spec (Z.min (Z.of_nat i * (max_chars - overlap) + max_chars) (len s)) 0);
    destruct (Z.ltb_spec (Z.of_nat i * (max_chars - overlap) + max_chars) 0); lia.
Qed.

Lemma chunk_text_nth_witness :
  ∃ chunks,
    RagIndexChunk.chunk_text (txt "abcdefghij") 4 1 = Returns chunks
    ∧ ∀ i c, chunks !! i = Some c →
        c = slice (txt "abcdefghij") (Z.of_nat i * (4 - 1)) (Z.of_nat i * (4 - 1) + 4).
Proof.
  destruct (chunk_text_nth (txt "abcdefghij") 4 1 ltac:(lia) ltac:(lia))
    as (chunks & Hrun & _ & Hnth).
  exists chunks. split; [exact Hrun|exact Hnth].
Defined.


(** ** Search, load and serve *)

Lemma sorted_reverse_perm {A K} (lt : K → K → bool) (key : A → K) (l : list A) :
  sorted_reverse lt key l ≡ₚ l.
Proof.
  unfold sorted_reverse.
  by rewrite <- Permutation_rev, stable_sort_perm, <- Permutation_rev.
Qed.

Lemma slice_to_negative {A} (l : list A) (k : Z) :
  k < 0 → slice_to l k = slice_to l (Z.max 0 (len l + k)).
Proof.
  intros Hk. unfold slice_to, slice_bound, len.
  destruct (Z.ltb_spec k 0); [|lia].
  destruct (Z.ltb_spec (Z.max 0 (Z.of_nat (length l) + k)) 0); [lia|].
  f_equal. lia.
Qed.

Section SearchMore.
Context {F : Type} `{!Float32 F} `{!Embeddings F}.

Lemma similarities_length (rows : list (list F)) (vecs : ndarray F) (q sims : list F) :
  np_array rows = Returns vecs → similarities vecs q = Returns sims →
  length sims = length rows.
Proof.
  unfold np_array. destruct rows as [|r rs]; [intros [= <-]; simpl; by case_match|].
  destruct (forallb _ rs); [|done]. intros [= <-]. unfold similarities.
  destruct (forallb _ _); [|done]. intros [= <-].
  apply (length_fmap (λ r0, dot r0 q) (r :: rs)).
Qed.

(** Under the index invariant and the embeddings contract [search] is the
    loop over the selected positions. *)
Lemma search_hits embed_one (d : nat) (idx : index F) (query : text) (k : Z) :
  embeds embed_one d → index_wf d idx →
  search idx query k
  = hits idx ((λ r, dot r (normalize (embed_one query))) <$> vectors idx)
      (top_indices ((λ r, dot r (normalize (embed_one query))) <$> vectors idx) k).
Proof.
  intros Hemb (Hne & Hd & _ & _). unfold search.
  rewrite (np_array_matrix d) by done. cbn [mbind outcome_bind].
  rewrite (embed_query_item embed_one d) by done. cbn [mbind outcome_bind].
  rewrite (similarities_matrix d); [done|done|].
  rewrite normalize_length. apply Hemb.
Qed.

Lemma top_indices_best (sims : list F) (k : Z) (i j : nat) :
  strict_weak_order flt → 0 ≤ k →
  i ∈ top_indices sims k → (j < length sims)%nat → j ∉ top_indices sims k →
  flt (sims !!! i) (sims !!! j) = false.
Proof.
  intros Hord Hk Hi Hj Hnj. unfold top_indices in *.
  rewrite slice_to_nonneg in Hi, Hnj by done.
  set (L := sorted_reverse flt (λ i, sims !!! i) (seq 0 (length sims))) in *.
  apply elem_of_take in Hi as (p & Hp & Hpk).
  assert (Hjl : j ∈ L).
  { unfold L. rewrite sorted_reverse_perm. apply elem_of_seq. lia. }
  apply list_elem_of_lookup in Hjl as (q & Hq).
  assert (Hqk : (Z.to_nat k ≤ q)%nat).
  { destruct (Nat.le_gt_cases (Z.to_nat k) q); [done|].
    exfalso. apply Hnj, elem_of_take. eauto. }
  by apply (sorted_reverse_ranked flt (λ i, sims !!! i) Hord (length sims) p q i j);
    [lia|..].
Qed.

Lemma top_indices_NoDup (sims : list F) (k : Z) : 0 ≤ k → NoDup (top_indices sims k).
Proof.
  intros Hk. unfold top_indices. rewrite slice_to_nonneg by done.
  eapply sublist_NoDup; [|apply sublist_take].
  rewrite sorted_reverse_perm. apply NoDup_seq.
Qed.

(** X5: under the hypotheses of the ranking ([<] a strict weak order on the
    scores, the embeddings contract, the index invariant, [k >= 0]), the
    results of [search] are the entries at pairwise different positions, and
    no entry left out has a score greater than the score of a result: the
    results are the [k] best. *)
Theorem search_selects_best (embed_one : text → list F) (d : nat) (idx : index F)
    (query : text) (k : Z) :
  strict_weak_order flt → embeds embed_one d → index_wf d idx → 0 ≤ k →
  ∃ out top_idx,
    search idx query k = Returns out
    ∧ Forall2 (hit_of idx ((λ r, dot r (normalize (embed_one query))) <$> vectors idx))
        top_idx out
    ∧ NoDup top_idx
    ∧ ∀ i j, i ∈ top_idx → (j < length (vectors idx))%nat → j ∉ top_idx →
        flt (((λ r, dot r (normalize (embed_one query))) <$> vectors idx) !!! i)
            (((λ r, dot r (normalize (embed_one query))) <$> vectors idx) !!! j) = false.
Proof.
  intros Hord Hemb Hwf Hk. rewrite (search_hits embed_one d) by done.
  set (sims := (λ r, dot r (normalize (embed_one query))) <$> vectors idx).
  destruct Hwf as (_ & _ & Hc & Hm).
  destruct (hits_returns idx sims (top_indices sims k)) as (out' & Hout' & Hall).
  { apply Forall_forall. intros i Hi. rewrite Hc, Hm.
    unfold top_indices in Hi. rewrite slice_to_nonneg in Hi by done.
    apply elem_of_take in Hi as (p & Hi & _).
    apply list_elem_of_lookup_2, sorted_reverse_range in Hi.
    unfold sims in Hi. by rewrite length_fmap in Hi. }
  exists out', (top_indices sims k). split; [done|]. split; [done|].
  split; [by apply top_indices_NoDup|].
  intros i j Hi Hj Hnj. apply (top_indices_best sims k); [done..| |done].
  unfold sims. by rewrite length_fmap.
Qed.

(** X6: a negative [k] is read by the slice [[:k]] from the end: [search]
    with [k < 0] is [search] with [max(0, n + k)], for an index of [n]
    vectors. *)
Theorem search_negative_k (idx : index F) (query : text) (k : Z) :
  k < 0 →
  search idx query k = search idx query (Z.max 0 (len (vectors idx) + k)).
Proof.
  intros Hk. unfold search.
  destruct (np_array (vectors idx)) as [vecs| |] eqn:Hvecs; [|done..].
  cbn [mbind outcome_bind].
  destruct (item (embed_texts [query]) 0) as [e| |]; [|done..].
  cbn [mbind outcome_bind].
  destruct (similarities vecs (normalize e)) as [sims| |] eqn:Hsims; [|done..].
  cbn [mbind outcome_bind]. f_equal.
  unfold top_indices. rewrite slice_to_negative by done. f_equal. f_equal.
  unfold len. rewrite sorted_reverse_length.
  by rewrite (similarities_length _ _ _ _ Hvecs Hsims).
Qed.

(** X7: [search] on an index without vectors raises, whatever the query and
    [k]: the empty array and the query vector do not multiply to a list of
    scores. *)
Theorem search_no_vectors_raises (idx : index F) (query : text) (k : Z) :
  vectors idx = [] → ∃ e, search idx query k = Raises e.
Proof.
  intros Hv. unfold search. rewrite Hv. cbn [np_array mbind outcome_bind].
  destruct (item (embed_texts [query]) 0) as [e| |] eqn:Hitem.
  - cbn [mbind outcome_bind similarities]. case_bool_decide; eauto.
  - eauto.
  - unfold item in Hitem. by destruct (embed_texts [query] !! 0%nat).
Qed.

(** X8: [search] on an index whose vectors have another dimension than the
    embedding of the query raises [ValueError]. *)
Theorem search_dimension_mismatch (embed_one : text → list F) (d d' : nat)
    (idx : index F) (query : text) (k : Z) :
  embeds embed_one d → vectors idx ≠ [] →
  Forall (λ r, length r = d') (vectors idx) → d' ≠ d →
  search idx query k = Raises ValueError.
Proof.
  intros Hemb Hne Hd' Hneq. unfold search.
  rewrite (np_array_matrix d') by done. cbn [mbind outcome_bind].
  rewrite (embed_query_item embed_one d) by done. cbn [mbind outcome_bind].
  unfold similarities. destruct (forallb _ _) eqn:Hall; [|done].
  destruct (vectors idx) as [|r rs]; [done|]. simpl in Hall.
  apply andb_prop in Hall as [Hr%bool_decide_eq_true _].
  apply Forall_inv in Hd'. rewrite normalize_length in Hr.
  destruct Hemb as [_ Hdim]. rewrite Hdim in Hr. congruence.
Qed.

Lemma load_index_returns (d : nat) (fs : store F) (path : string) (idx : index F) :
  fs !! path = Some idx → index_wf d idx →
  _load_index fs path = Returns (Loaded idx (normalize <$> vectors idx)).
Proof.
  intros Hfs (Hne & Hd & _). unfold _load_index. rewrite Hfs.
  by rewrite (np_array_matrix d).
Qed.

Lemma rag_search_loaded embed_one (d : nat) (idx : index F) (q : text) (k : Z) :
  strict_weak_order flt → embeds embed_one d → index_wf d idx → 0 ≤ k →
  ∃ out,
    rag_search (Some (Loaded idx (normalize <$> vectors idx))) q k = Returns out
    ∧ top_k_result idx
        ((λ r, dot r (normalize (embed_one q))) <$> (normalize <$> vectors idx)) k out.
Proof.
  intros Hord Hemb (Hne & Hd & Hc & Hm) Hk. unfold rag_search, _embed_query.
  rewrite (embed_query_item embed_one d) by done.
  cbn [mbind outcome_bind mret outcome_ret _vecs data].
  rewrite (similarities_matrix d).
  - cbn [mbind outcome_bind]. apply hits_top_k; [done|done|by rewrite !length_fmap..].
  - apply Forall_fmap. eapply Forall_impl; [done|].
    intros r Hr. simpl. by rewrite normalize_length.
  - rewrite normalize_length. apply Hemb.
Qed.

(** X9: the server starts without an index when the index file is missing,
    holds no vector, or holds vectors of different lengths; without an index
    it reports itself degraded and answers every search with status 503. *)
Theorem server_degraded (fs : store F) (path : string) :
  fs !! path = None
  ∨ (∃ idx, fs !! path = Some idx
       ∧ (vectors idx = [] ∨ ¬ ∃ d, Forall (λ r, length r = d) (vectors idx))) →
  startup_index fs path = None
  ∧ health (startup_index fs path) = ("degraded"%string, 0)
  ∧ ∀ q k, rag_search (startup_index fs path) q k
           = Raises (HTTPException503 "Index not loaded").
Proof.
  intros Hfile.
  assert (Hnone : startup_index fs path = None); [|by rewrite Hnone].
  unfold startup_index, _load_index.
  destruct Hfile as [->|(idx & -> & Hvecs)]; [done|].
  unfold np_array. destruct (vectors idx) as [|r rs]; [done|].
  destruct Hvecs as [?|Hragged]; [done|].
  destruct (forallb _ rs) eqn:Hall; [|done].
  exfalso. apply Hragged. exists (length r).
  constructor; [done|]. apply Forall_forall. intros r' Hr'.
  rewrite forallb_forall in Hall.
  apply (bool_decide_eq_true_1 _), Hall. by apply list_elem_of_In.
Qed.

End SearchMore.

Section PipelineFacts.
Context {F : Type} `{!Float32 F} `{!Embeddings F} `{!HtmlParser}.

(** X11: an index built by rag_index.py is read back and searched: after
    [build_index_from_dir] on a document set that is not empty, [load_index]
    returns the index that was built, and [search] on it returns [min(k, n)]
    results for [k >= 0]. *)
Theorem build_load_search (embed_one : text → list F) (d : nat)
    (files : list (string * text)) (data_dir index_path : string) (fs : store F)
    (q : text) (k : Z) :
  strict_weak_order flt → embeds embed_one d → files ≠ [] → 0 ≤ k →
  ∃ idx out,
    RagIndex.build_index_from_dir files data_dir index_path fs
      = (Returns idx, <[index_path := idx]> fs)
    ∧ load_index (<[index_path := idx]> fs) index_path = Returns idx
    ∧ search idx q k = Returns out
    ∧ len out = Z.min k (len (chunks idx)).
Proof.
  intros Hord Hemb Hfiles Hk.
  destruct (build_payload_spec RagIndexText.html_to_text
              (λ s, RagIndexChunk.chunk_text s
                      RagIndexChunk.default_max_chars RagIndexChunk.default_overlap)
              rag_chunk_text_returns
              embed_one d ("No .html files found under " +:+ data_dir) files Hfiles Hemb)
    as (idx & Hrun & Hidx & Hne).
  pose proof (index_of_chunks_wf _ _ _ _ Hemb Hne Hidx) as Hwf.
  pose proof (search_hits embed_one d idx q k Hemb Hwf) as Hsearch.
  destruct Hwf as (_ & _ & Hc & Hm).
  destruct (hits_top_k idx ((λ r, dot r (normalize (embed_one q))) <$> vectors idx) k)
    as (out & Hout & Htop); [done|done|by rewrite length_fmap..|].
  exists idx, out.
  split; [unfold RagIndex.build_index_from_dir; by rewrite Hrun|].
  split; [unfold load_index; by rewrite lookup_insert_eq|].
  split; [by rewrite Hsearch|].
  destruct Htop as [-> _]. unfold len. by rewrite length_fmap, Hc.
Qed.

End PipelineFacts.

Section ServeFacts.
Context {F : Type} `{!Float32 F} `{!HtmlParser}.

(** [rag_search] with a query embedding of another dimension than the
    vectors of the index. *)
Lemma rag_search_other_dimension (server : Embeddings F)
    (embed_query : text → list F) (d d' : nat) (idx : index F) (q : text) (k : Z) :
  @embeds F server embed_query d' → index_wf d idx → d' ≠ d →
  @rag_search F _ server (Some (Loaded idx (normalize <$> vectors idx))) q k
  = Raises ValueError.
Proof.
  intros Hq (Hne & Hd & _) Hneq. unfold rag_search, _embed_query.
  rewrite (embed_query_item (Embeddings0 := server) embed_query d') by done.
  cbn [mbind outcome_bind mret outcome_ret _vecs data].
  unfold similarities. destruct (forallb _ _) eqn:Hall; [|done].
  destruct (vectors idx) as [|r rs]; [done|].
  rewrite fmap_cons in Hall. cbn [forallb] in Hall.
  apply andb_prop in Hall as [Hr%bool_decide_eq_true _].
  apply Forall_inv in Hd. rewrite !normalize_length in Hr.
  destruct Hq as [_ Hdim]. rewrite Hdim in Hr. congruence.
Qed.

(** X10: an index built by embed_texts.py and the server, each with the
    embeddings service it names: after [build_index_from_dir] on a document
    set that is not empty the server loads the written file and reports
    [ok] with the number of chunks; [rag_search] returns [min(k, n)] results
    for [k >= 0] when the service of the server embeds in the dimension of
    the builder's, and raises [ValueError] when the dimensions differ. *)
Theorem build_then_serve (builder server : Embeddings F)
    (embed_build embed_query : text → list F) (d d' : nat)
    (files : list (string * text)) (data_dir index_path : string) (fs : store F)
    (q : text) (k : Z) :
  strict_weak_order flt →
  @embeds F builder embed_build d → @embeds F server embed_query d' →
  files ≠ [] → 0 ≤ k →
  ∃ idx ld,
    @EmbedTexts.build_index_from_dir F _ builder _ files data_dir index_path fs
      = (Returns idx, <[index_path := idx]> fs)
    ∧ startup_index (<[index_path := idx]> fs) index_path = Some ld
    ∧ data ld = idx
    ∧ health (Some ld) = ("ok"%string, len (chunks idx))
    ∧ (d' = d →
       ∃ out, @rag_search F _ server (Some ld) q k = Returns out
              ∧ len out = Z.min k (len (chunks idx)))
    ∧ (d' ≠ d → @rag_search F _ server (Some ld) q k = Raises ValueError).
Proof.
  intros Hord Hbuild Hquery Hfiles Hk.
  destruct (build_payload_spec (Embeddings0 := builder) HtmlToText.html_to_text
              (λ s, EmbedTextsChunk.chunk_text s
                      EmbedTextsChunk.default_max_chars EmbedTextsChunk.default_overlap)
              embed_chunk_text_returns
              embed_build d ("No .html files found in " +:+ data_dir) files Hfiles Hbuild)
    as (idx & Hrun & Hidx & Hne).
  pose proof (index_of_chunks_wf (Embeddings0 := builder) _ _ _ _ Hbuild Hne Hidx) as Hwf.
  exists idx, (Loaded idx (normalize <$> vectors idx)).
  split; [unfold EmbedTexts.build_index_from_dir; by rewrite Hrun|].
  split.
  { unfold startup_index. by rewrite (load_index_returns d _ _ idx (lookup_insert_eq _ _ _) Hwf). }
  split; [done|]. split; [done|]. split.
  - intros ->.
    destruct (rag_search_loaded (Embeddings0 := server) embed_query d idx q k
                Hord Hquery Hwf Hk) as (out & Hout & Htop).
    exists out. split; [done|].
    destruct Htop as [-> _]. destruct Hwf as (_ & _ & Hc & _).
    unfold len. by rewrite !length_fmap, Hc.
  - intros Hneq. by apply (rag_search_other_dimension server embed_query d d').
Qed.

End ServeFacts.



(** The two best of the index of three entries. *)
Lemma search_selects_best_witness :
  ∃ out (top_idx : list nat),
    @search Z int_arith length_embeddings small_index (txt "ab") 2 = Returns out
    ∧ length out = length top_idx ∧ NoDup top_idx.
Proof.
  assert (Hemb : @embeds Z length_embeddings embed_length 2)
    by (split; intros; reflexivity).
  assert (Hwf : @index_wf Z 2 small_index)
    by (repeat split; [discriminate|repeat constructor]).
  destruct (@search_selects_best Z int_arith length_embeddings embed_length 2 small_index
              (txt "ab") 2 Z_ltb_order Hemb Hwf ltac:(lia))
    as (out & top_idx & Hrun & Hhits & Hnd & _).
  exists out, top_idx. split; [exact Hrun|].
  split; [symmetry; exact (Forall2_length _ _ _ Hhits)|exact Hnd].
Defined.

(** [k = -1] over the index of three entries is [k = 2]. *)
Lemma search_negative_k_witness :
  @search Z int_arith length_embeddings small_index (txt "ab") (-1)
  = @search Z int_arith length_embeddings small_index (txt "ab") 2.
Proof.
  exact (@search_negative_k Z int_arith length_embeddings small_index (txt "ab") (-1)
           ltac:(lia)).
Defined.

(** An index of chunks without vectors. *)
Lemma search_no_vectors_raises_witness :
  ∃ e, @search Z int_arith length_embeddings (Index [] [] []) (txt "ab") 2 = Raises e.
Proof.
  exact (@search_no_vectors_raises Z int_arith length_embeddings (Index [] [] [])
           (txt "ab") 2 eq_refl).
Defined.

(** Vectors of three components against an embedding of two. *)
Lemma search_dimension_mismatch_witness :
  @search Z int_arith length_embeddings
    (Index [[1; 0; 0]] [Meta "a.html" 0] [txt "x"]) (txt "ab") 1
  = Raises ValueError.
Proof.
  assert (Hemb : @embeds Z length_embeddings embed_length 2)
    by (split; intros; reflexivity).
  apply (@search_dimension_mismatch Z int_arith length_embeddings embed_length 2 3
           (Index [[1; 0; 0]] [Meta "a.html" 0] [txt "x"]) (txt "ab") 1 Hemb);
    [discriminate|repeat constructor|lia].
Defined.

(** No file in an empty store. *)
Lemma server_degraded_witness :
  @startup_index Z int_arith ∅ "index.json" = None
  ∧ @health Z (@startup_index Z int_arith ∅ "index.json") = ("degraded"%string, 0).
Proof.
  destruct (@server_degraded Z int_arith length_embeddings ∅ "index.json"
              (or_introl (lookup_empty _))) as (Hnone & Hhealth & _).
  split; [exact Hnone|exact Hhealth].
Defined.

(** The server over an index built from one small file, the two services
    being the same. *)
Lemma build_then_serve_witness :
  ∃ idx ld out,
    @EmbedTexts.build_index_from_dir Z int_arith length_embeddings one_text_node
      [("a.html"%string, txt "<p>hi</p>")] "data" "index.json" ∅
      = (Returns idx, <["index.json"%string := idx]> ∅)
    ∧ @startup_index Z int_arith (<["index.json"%string := idx]> ∅) "index.json" = Some ld
    ∧ @rag_search Z int_arith length_embeddings (Some ld) (txt "hi") 3 = Returns out
    ∧ len out = Z.min 3 (len (chunks idx)).
Proof.
  assert (Hemb : @embeds Z length_embeddings embed_length 2)
    by (split; intros; reflexivity).
  destruct (@build_then_serve Z int_arith one_text_node length_embeddings length_embeddings
              embed_length embed_length 2 2
              [("a.html"%string, txt "<p>hi</p>")] "data" "index.json" ∅
              (txt "hi") 3 Z_ltb_order Hemb Hemb ltac:(discriminate) ltac:(lia))
    as (idx & ld & Hrun & Hstart & _ & _ & Hsame & _).
  destruct (Hsame eq_refl) as (out & Hout & Hlen).
  exists idx, ld, out. split; [exact Hrun|]. split; [exact Hstart|].
  split; [exact Hout|exact Hlen].
Defined.

(** A build, a load and a search over one small file. *)
Lemma build_load_search_witness :
  ∃ idx out,
    @RagIndex.build_index_from_dir Z int_arith length_embeddings one_text_node
      [("a.html"%string, txt "<p>hi</p>")] "data" "index.json" ∅
      = (Returns idx, <["index.json"%string := idx]> ∅)
    ∧ @load_index Z (<["index.json"%string := idx]> ∅) "index.json" = Returns idx
    ∧ @search Z int_arith length_embeddings idx (txt "hi") 3 = Returns out
    ∧ len out = Z.min 3 (len (chunks idx)).
Proof.
  assert (Hemb : @embeds Z length_embeddings embed_length 2)
    by (split; intros; reflexivity).
  destruct (@build_load_search Z int_arith length_embeddings one_text_node
              embed_length 2 [("a.html"%string, txt "<p>hi</p>")] "data" "index.json" ∅
              (txt "hi") 3 Z_ltb_order Hemb ltac:(discriminate) ltac:(lia))
    as (idx & out & Hrun & Hload & Hout & Hlen).
  exists idx, out. split; [exact Hrun|]. split; [exact Hload|].
  split; [exact Hout|exact Hlen].
Defined.

(** ** Code fences *)

Section FenceFacts.
Import Fences.
Implicit Types s body : text.

Lemma lstrip_length s : (length (lstrip s) ≤ length s)%nat.
Proof. induction s as [|c s IH]; simpl; [done|]. destruct (isspace c); simpl; lia. Qed.

Lemma lstrip_fixed s :
  lstrip s = s ↔ match s with [] => True | c :: _ => isspace c = false end.
Proof.
  destruct s as [|c s]; simpl; [done|]. destruct (isspace c); [|done].
  split; [|done]. intros Heq. pose proof (lstrip_length s) as Hlen.
  rewrite Heq in Hlen. simpl in Hlen. lia.
Qed.

Lemma lstrip_app_space w s : all_space w → lstrip (w ++ s) = lstrip s.
Proof. induction 1 as [|c w Hc _ IH]; simpl; [done|]. by rewrite Hc. Qed.

Lemma rstrip_app_space s w : all_space w → rstrip (s ++ w) = rstrip s.
Proof.
  intros Hw. unfold rstrip. rewrite rev_app_distr, lstrip_app_space; [done|].
  by apply (proj2 (rev_Forall _ _)).
Qed.

Lemma rstrip_snoc s c : isspace c = false → rstrip (s ++ [c]) = s ++ [c].
Proof.
  intros Hc. unfold rstrip. rewrite rev_app_distr. simpl. rewrite Hc.
  simpl. by rewrite rev_involutive.
Qed.

Lemma strip_rstrip s : strip s = rstrip (lstrip s).
Proof. done. Qed.

Lemma rstrip_length s : (length (rstrip s) ≤ length s)%nat.
Proof.
  unfold rstrip. rewrite length_rev. etrans; [apply lstrip_length|].
  by rewrite length_rev.
Qed.

(** A text that [strip] leaves alone is left alone by [lstrip] and [rstrip]. *)
Lemma strip_fixed s : strip s = s → lstrip s = s ∧ rstrip s = s.
Proof.
  intros Heq. rewrite strip_rstrip in Heq.
  assert (Hl : lstrip s = s).
  { apply lstrip_fixed. destruct s as [|c s]; [done|].
    destruct (isspace c) eqn:Hc; [|done]. exfalso.
    pose proof (rstrip_length (lstrip (c :: s))) as H1.
    rewrite Heq in H1. simpl in H1. rewrite Hc in H1.
    pose proof (lstrip_length s). lia. }
  split; [done|]. by rewrite Hl in Heq.
Qed.

(** A text that [rstrip] leaves alone and that is not empty ends with a
    character that is not white space. *)
Lemma rstrip_fixed_last s :
  s ≠ [] → rstrip s = s → ∃ s' c, s = s' ++ [c] ∧ isspace c = false.
Proof.
  intros Hne Heq. destruct (rev s) as [|c r] eqn:Hrev.
  { apply (proj1 (rev_nil_iff _)) in Hrev. done. }
  exists (rev r), c. split.
  { by rewrite <- (rev_involutive s), Hrev. }
  destruct (isspace c) eqn:Hc; [|done]. exfalso.
  apply (f_equal (@length _)) in Heq. unfold rstrip in Heq.
  rewrite Hrev, length_rev in Heq. simpl in Heq. rewrite Hc in Heq.
  pose proof (lstrip_length r) as Hr.
  assert (length s = S (length r)) by (by rewrite <- length_rev, Hrev).
  lia.
Qed.

Lemma rstrip_app_fixed x s : s ≠ [] → rstrip s = s → rstrip (x ++ s) = x ++ s.
Proof.
  intros Hne Heq. destruct (rstrip_fixed_last s Hne Heq) as (s' & c & -> & Hc).
  rewrite app_assoc. by apply rstrip_snoc.
Qed.

Lemma strip_pad w1 w2 s :
  all_space w1 → all_space w2 → strip s = s → strip (w1 ++ s ++ w2) = s.
Proof.
  intros H1 H2 Heq. destruct (strip_fixed s Heq) as [Hl Hr].
  rewrite strip_rstrip, lstrip_app_space by done.
  destruct s as [|c s].
  - simpl. assert (lstrip w2 = []) as -> by (by apply lstrip_nil). done.
  - apply lstrip_fixed in Hl.
    assert (lstrip ((c :: s) ++ w2) = (c :: s) ++ w2) as ->
      by (simpl in *; by rewrite Hl).
    by rewrite rstrip_app_space.
Qed.

Lemma space_LF : all_space [LF].
Proof. by repeat constructor. Qed.

Lemma endswith_app s p : endswith p (s ++ p) = true.
Proof.
  unfold endswith. apply bool_decide_eq_true. rewrite length_app.
  replace (length s + length p - length p)%nat with (length s) by lia.
  by rewrite drop_app_length.
Qed.

Lemma startswith_app p s : startswith p (p ++ s) = true.
Proof. unfold startswith. apply bool_decide_eq_true. by rewrite take_app_length. Qed.

Lemma slice_to_drop_last s p :
  p ≠ [] → slice_to (s ++ p) (- len p) = s.
Proof.
  intros Hp. unfold slice_to, slice_bound, len. rewrite length_app.
  destruct p as [|c p]; [done|]. simpl length.
  destruct (Z.ltb_spec (- Z.of_nat (S (length p))) 0); [|lia].
  replace (Z.to_nat _) with (length s) by lia. by rewrite take_app_length.
Qed.

Lemma slice_to_fence s : slice_to (s ++ fence) (-3) = s.
Proof. by apply (slice_to_drop_last s fence). Qed.

Lemma rstrip_fence s : rstrip (s ++ fence) = s ++ fence.
Proof.
  change fence with ([("`")%char; ("`")%char] ++ [("`")%char]).
  rewrite app_assoc. by apply rstrip_snoc.
Qed.

Lemma strip_fenced s :
  strip (fence ++ s ++ fence) = fence ++ s ++ fence.
Proof.
  rewrite strip_rstrip.
  assert (lstrip (fence ++ s ++ fence) = fence ++ s ++ fence) as -> by done.
  rewrite app_assoc. apply rstrip_fence.
Qed.

Lemma lstrip_chars_stop chars c s :
  c ∉ chars → lstrip_chars chars (c :: s) = c :: s.
Proof. intros Hc. simpl. by rewrite bool_decide_eq_false_2. Qed.

Lemma lstrip_chars_skip chars c s :
  c ∈ chars → lstrip_chars chars (c :: s) = lstrip_chars chars s.
Proof. intros Hc. simpl. by rewrite bool_decide_eq_true_2. Qed.

Lemma not_backtick c : c ≠ ("`")%char → c ∉ txt "`".
Proof. intros Hc [->|[]%elem_of_nil]%elem_of_cons. done. Qed.

(** [lstrip("`")] takes the opening fence and stops at the next character. *)
Lemma lstrip_chars_fence c s :
  c ≠ ("`")%char → lstrip_chars (txt "`") (fence ++ c :: s) = c :: s.
Proof.
  intros Hc. change (fence ++ c :: s) with (("`")%char :: ("`")%char :: ("`")%char :: c :: s).
  rewrite !(lstrip_chars_skip _ ("`")%char) by (by left).
  by apply lstrip_chars_stop, not_backtick.
Qed.

(** X12: a fenced answer tagged [json] in any case, with a body that has no
    white space at its ends, is given back as its body by
    [_strip_code_fences]. *)
Theorem strip_code_fences_tagged (tag body : text) :
  lower tag = txt "json" → strip body = body →
  _strip_code_fences (fence ++ tag ++ [LF] ++ body ++ [LF] ++ fence) = body.
Proof.
  intros Htag Hbody. destruct (strip_fixed body Hbody) as [Hl Hr].
  unfold _strip_code_fences.
  replace (fence ++ tag ++ [LF] ++ body ++ [LF] ++ fence)
    with (fence ++ (tag ++ [LF] ++ body ++ [LF]) ++ fence)
    by (by rewrite <- !app_assoc).
  rewrite strip_fenced, startswith_app. cbv zeta.
  destruct tag as [|c1 [|c2 [|c3 [|c4 [|c5 tag]]]]]; try done.
  injection Htag as H1 H2 H3 H4.
  assert (Hc1 : c1 ≠ ("`")%char) by (intros ->; done).
  assert (Hstrip : lstrip_chars (txt "`")
             (fence ++ ([c1; c2; c3; c4] ++ [LF] ++ body ++ [LF]) ++ fence)
           = [c1; c2; c3; c4] ++ LF :: body ++ [LF] ++ fence).
  { rewrite <- !app_assoc. by apply (lstrip_chars_fence c1). }
  rewrite Hstrip.
  assert (Hjson : startswith (txt "json")
                    (lower ([c1; c2; c3; c4] ++ LF :: body ++ [LF] ++ fence)) = true).
  { unfold startswith. apply bool_decide_eq_true. cbn. by rewrite H1, H2, H3, H4. }
  rewrite Hjson.
  change (drop 4 ([c1; c2; c3; c4] ++ LF :: body ++ [LF] ++ fence))
    with ([LF] ++ body ++ [LF] ++ fence).
  rewrite lstrip_app_space by apply space_LF.
  destruct body as [|c body].
  - by vm_compute.
  - apply lstrip_fixed in Hl. simpl in Hl.
    assert (lstrip ((c :: body) ++ [LF] ++ fence) = ((c :: body) ++ [LF]) ++ fence) as ->.
    { simpl. rewrite Hl. by rewrite <- app_assoc. }
    rewrite endswith_app.
    rewrite slice_to_fence.
    by rewrite rstrip_app_space by apply space_LF.
Qed.

(** X13: a fence without a tag keeps its first line feed: [_strip_code_fences]
    returns the body after a line feed. *)
Theorem strip_code_fences_untagged (body : text) :
  body ≠ [] → strip body = body →
  _strip_code_fences (fence ++ [LF] ++ body ++ [LF] ++ fence) = LF :: body.
Proof.
  intros Hne Hbody. destruct (strip_fixed body Hbody) as [Hl Hr].
  unfold _strip_code_fences.
  replace (fence ++ [LF] ++ body ++ [LF] ++ fence)
    with (fence ++ ([LF] ++ body ++ [LF]) ++ fence)
    by (by rewrite <- !app_assoc).
  rewrite strip_fenced, startswith_app. cbv zeta.
  assert (Hstrip : lstrip_chars (txt "`") (fence ++ ([LF] ++ body ++ [LF]) ++ fence)
           = ((LF :: body) ++ [LF]) ++ fence).
  { rewrite <- !app_assoc. by apply (lstrip_chars_fence LF). }
  rewrite Hstrip.
  assert (Hjson : startswith (txt "json") (lower (((LF :: body) ++ [LF]) ++ fence)) = false).
  { unfold startswith. apply bool_decide_eq_false. cbn. intros [=]. }
  rewrite Hjson, endswith_app.
  rewrite slice_to_fence.
  rewrite rstrip_app_space by apply space_LF.
  by apply (rstrip_app_fixed [LF] body).
Qed.

(** X14: [clean_json_output] parses the body of a fenced answer, tagged
    [json] or not, when the body has no white space at its ends. *)
Theorem clean_json_output_fenced {A} `{!JsonLoads A} (body : text) :
  strip body = body →
  clean_json_output (txt "```json" ++ [LF] ++ body ++ [LF] ++ fence) = loads body
  ∧ clean_json_output (fence ++ [LF] ++ body ++ [LF] ++ fence) = loads body.
Proof.
  intros Hbody. unfold clean_json_output. split; f_equal.
  - rewrite startswith_app. unfold removeprefix. rewrite startswith_app.
    rewrite drop_app_length. unfold removesuffix.
    replace ([LF] ++ body ++ [LF] ++ fence) with (([LF] ++ body ++ [LF]) ++ fence)
      by (by rewrite <- !app_assoc).
    rewrite endswith_app, length_app, Nat.add_sub, take_app_length.
    apply strip_pad; [apply space_LF..|done].
  - assert (startswith (txt "```json") (fence ++ [LF] ++ body ++ [LF] ++ fence) = false) as ->.
    { unfold startswith. apply bool_decide_eq_false. cbn. intros [=]. }
    rewrite startswith_app. unfold removeprefix. rewrite startswith_app.
    rewrite drop_app_length. unfold removesuffix.
    replace ([LF] ++ body ++ [LF] ++ fence) with (([LF] ++ body ++ [LF]) ++ fence)
      by (by rewrite <- !app_assoc).
    rewrite endswith_app, length_app, Nat.add_sub, take_app_length.
    apply strip_pad; [apply space_LF..|done].
Qed.

(** [strip("`")] takes both fences of a text that ends with a line feed. *)
Lemma strip_chars_fenced c s :
  c ≠ ("`")%char →
  strip_chars (txt "`") (fence ++ ((c :: s) ++ [LF]) ++ fence) = (c :: s) ++ [LF].
Proof.
  intros Hc. unfold strip_chars.
  assert (lstrip_chars (txt "`") (fence ++ ((c :: s) ++ [LF]) ++ fence)
          = ((c :: s) ++ [LF]) ++ fence) as ->
    by (by apply (lstrip_chars_fence c)).
  rewrite !rev_app_distr. change (rev fence) with fence.
  change (rev [LF] ++ rev (c :: s)) with (LF :: rev (c :: s)).
  rewrite (lstrip_chars_fence LF) by done.
  change (rev (LF :: rev (c :: s))) with (rev (rev (c :: s)) ++ [LF]).
  by rewrite rev_involutive.
Qed.

(** X15: the cleaning in [main] gives the body of an answer fenced and
    tagged [json] with the line feed before the closing fence. *)
Theorem cleaned_tagged_fence (body : text) :
  body ≠ [] → lstrip body = body →
  cleaned (txt "```json" ++ [LF] ++ body ++ [LF] ++ fence) = body ++ [LF].
Proof.
  intros Hne Hl. unfold cleaned.
  change (txt "```json") with (fence ++ txt "json").
  replace ((fence ++ txt "json") ++ [LF] ++ body ++ [LF] ++ fence)
    with (fence ++ (txt "json" ++ [LF] ++ body ++ [LF]) ++ fence)
    by (by rewrite <- !app_assoc).
  rewrite strip_fenced, startswith_app. cbv zeta.
  change (txt "json" ++ [LF] ++ body ++ [LF])
    with ((("j")%char :: txt "son" ++ [LF] ++ body) ++ [LF]).
  rewrite strip_chars_fenced by done.
  change ((("j")%char :: txt "son" ++ [LF] ++ body) ++ [LF])
    with (txt "json" ++ [LF] ++ body ++ [LF]).
  rewrite startswith_app.
  change (drop 4 (txt "json" ++ [LF] ++ body ++ [LF])) with ([LF] ++ body ++ [LF]).
  rewrite lstrip_app_space by apply space_LF.
  destruct body as [|c body]; [done|]. apply lstrip_fixed in Hl. simpl in *.
  by rewrite Hl.
Qed.

Lemma find_eq sep s :
  find sep s = if startswith sep s then Some 0%nat
               else match s with
                    | [] => None
                    | _ :: s' => S <$> find sep s'
                    end.
Proof. by destruct s. Qed.

Lemma find_first sep c pre rest :
  head sep = Some c → c ∉ pre → find sep (pre ++ sep ++ rest) = Some (length pre).
Proof.
  intros Hsep Hc. induction pre as [|a pre IH].
  - change ([] ++ sep ++ rest) with (sep ++ rest).
    by rewrite find_eq, (startswith_app sep rest).
  - apply not_elem_of_cons in Hc as [Hac Hc]. rewrite find_eq.
    assert (startswith sep ((a :: pre) ++ sep ++ rest) = false) as ->.
    { unfold startswith. apply bool_decide_eq_false. destruct sep as [|c' sep]; [done|].
      simpl in Hsep. injection Hsep as ->. simpl. intros [= -> _]. done. }
    simpl. by rewrite IH.
Qed.

Lemma find_occurs sep a b : is_Some (find sep (a ++ sep ++ b)).
Proof.
  induction a as [|x a IH]; rewrite find_eq.
  - change ([] ++ sep ++ b) with (sep ++ b). by rewrite (startswith_app sep b).
  - destruct (startswith sep _); [done|].
    simpl. destruct IH as [i ->]. done.
Qed.

Lemma split1_first sep c pre rest :
  head sep = Some c → c ∉ pre → split1 sep (pre ++ sep ++ rest) = (pre, Some rest).
Proof.
  intros Hsep Hc. unfold split1. rewrite (find_first sep c) by done.
  rewrite take_app_length. f_equal. f_equal.
  by rewrite <- drop_drop, drop_app_length, drop_app_length.
Qed.

(** X16: the reply of [/collect] carries its JSON between the two markers:
    when no [<] comes before the first marker or between the markers, the
    text given to [json.loads] is the stripped text between them. *)
Theorem blob_between_markers (pre body post : text) :
  ("<")%char ∉ pre → ("<")%char ∉ body →
  blob (pre ++ JSON_marker ++ body ++ END_marker ++ post) = Some (strip body).
Proof.
  intros Hpre Hbody. unfold blob, contains.
  rewrite bool_decide_eq_true_2 by apply find_occurs.
  rewrite bool_decide_eq_true_2.
  2:{ replace (pre ++ JSON_marker ++ body ++ END_marker ++ post)
        with ((pre ++ JSON_marker ++ body) ++ END_marker ++ post)
        by (by rewrite <- !app_assoc).
      apply find_occurs. }
  cbn [andb]. rewrite (split1_first JSON_marker ("<")%char) by done.
  cbn [snd mbind option_bind]. by rewrite (split1_first END_marker ("<")%char).
Qed.

End FenceFacts.

Lemma strip_code_fences_tagged_witness :
  Fences._strip_code_fences
    (Fences.fence ++ txt "JSON" ++ [LF] ++ txt "{}" ++ [LF] ++ Fences.fence) = txt "{}".
Proof. apply (strip_code_fences_tagged (txt "JSON") (txt "{}")); reflexivity. Defined.

Lemma strip_code_fences_untagged_witness :
  Fences._strip_code_fences (Fences.fence ++ [LF] ++ txt "{}" ++ [LF] ++ Fences.fence)
  = LF :: txt "{}".
Proof. apply (strip_code_fences_untagged (txt "{}")); [discriminate|reflexivity]. Defined.

(** A parser that accepts nothing, to run the definition. *)
Lemma clean_json_output_fenced_witness :
  @Fences.clean_json_output unit {| Fences.loads := λ _, Raises ValueError |}
    (Fences.fence ++ [LF] ++ txt "{}" ++ [LF] ++ Fences.fence)
  = Raises ValueError.
Proof.
  exact (proj2 (@clean_json_output_fenced unit {| Fences.loads := λ _, Raises ValueError |}
                  (txt "{}") eq_refl)).
Defined.

Lemma cleaned_tagged_fence_witness :
  Fences.cleaned (txt "```json" ++ [LF] ++ txt "{}" ++ [LF] ++ Fences.fence)
  = txt "{}" ++ [LF].
Proof. apply (cleaned_tagged_fence (txt "{}")); [discriminate|reflexivity]. Defined.

Lemma blob_between_markers_witness :
  Fences.blob (txt "ok " ++ Fences.JSON_marker ++ txt " {} " ++ Fences.END_marker ++ txt "!")
  = Some (txt "{}").
Proof.
  apply (blob_between_markers (txt "ok ") (txt " {} ") (txt "!"));
    intros H; repeat (apply elem_of_cons in H as [H|H]; [discriminate H|]);
    by apply elem_of_nil in H.
Defined.

(** ** Tables *)

Section TableFacts.
Implicit Types s p : text.

Lemma flat_map_map_id {A B} (f : B → list B) (g : A → B) (l : list A) :
  (∀ x, f (g x) = [g x]) → flat_map f (map g l) = map g l.
Proof. intros Hf. induction l as [|x l IH]; simpl; [done|]. by rewrite Hf, IH. Qed.

Lemma flat_map_map_nil {A B C} (f : B → list C) (g : A → B) (l : list A) :
  (∀ x, f (g x) = []) → flat_map f (map g l) = [].
Proof. intros Hf. induction l as [|x l IH]; simpl; [done|]. by rewrite Hf, IH. Qed.

Lemma matching_row names (cells : list text) :
  "tr"%string ∈ names → "td"%string ∉ names →
  matching names (row_node cells) = [row_node cells].
Proof.
  intros Htr Htd. unfold row_node. cbn [matching].
  rewrite bool_decide_eq_true_2 by done.
  rewrite flat_map_map_nil; [done|]. intros c. unfold cell_node. cbn [matching].
  by rewrite bool_decide_eq_false_2.
Qed.

Lemma matching_cell names (c : text) :
  "td"%string ∈ names → matching names (cell_node c) = [cell_node c].
Proof.
  intros Htd. unfold cell_node. cbn [matching].
  by rewrite bool_decide_eq_true_2.
Qed.

Lemma decompose_tag names name cs :
  name ∉ names → flat_map (decompose names) cs = cs →
  decompose names (Tag name cs) = [Tag name cs].
Proof.
  intros Hname Hcs. cbn [decompose]. rewrite bool_decide_eq_false_2 by done.
  by rewrite Hcs.
Qed.

Lemma get_text_cell (c : text) : cell_text c → get_text (txt " ") (cell_node c) = c.
Proof.
  intros [[Hne _] Hc]. unfold get_text, cell_node. cbn [strings flat_map app map].
  rewrite Hc. by destruct c.
Qed.

Lemma row_cells_row (cells : list text) :
  Forall cell_text cells → row_cells (row_node cells) = cells.
Proof.
  intros Hcells. unfold row_cells, row_node, find_all.
  rewrite flat_map_map_id.
  2:{ intros c. apply matching_cell. set_solver. }
  induction Hcells as [|c cells Hc _ IH]; cbn [map]; [done|].
  by rewrite get_text_cell, IH.
Qed.

Lemma table_rows_table (rows : list (list text)) :
  Forall (λ cells, cells ≠ [] ∧ Forall cell_text cells) rows →
  table_rows (Tag "table" (map row_node rows)) = map (join (txt " | ")) rows.
Proof.
  intros Hrows. unfold table_rows, find_all.
  rewrite flat_map_map_id.
  2:{ intros cells. apply matching_row; set_solver. }
  induction Hrows as [|cells rows [Hne Hcells] _ IH]; cbn [map flat_map]; [done|].
  rewrite row_cells_row by done. rewrite IH. by destruct cells.
Qed.

Lemma table_document_decomposed (rows : list (list text)) :
  decompose_all ["script"; "style"; "noscript"]%string (table_document rows)
  = table_document rows.
Proof.
  unfold table_document, decompose_all. f_equal. cbn [flat_map]. rewrite app_nil_r.
  assert (Hnot : ∀ name : string,
            bool_decide (name ∈ ["script"; "style"; "noscript"]%string) = false →
            name ∉ ["script"; "style"; "noscript"]%string)
    by (intros name; apply bool_decide_eq_false_1).
  apply decompose_tag; [by apply Hnot|]. cbn [flat_map]. rewrite app_nil_r.
  apply decompose_tag; [by apply Hnot|]. cbn [flat_map]. rewrite app_nil_r.
  apply decompose_tag; [by apply Hnot|].
  apply flat_map_map_id. intros cells. unfold row_node.
  apply decompose_tag; [by apply Hnot|].
  apply flat_map_map_id. intros c. unfold cell_node.
  apply decompose_tag; [by apply Hnot|]. done.
Qed.

Lemma table_document_replaced (rows : list (list text)) :
  replace_tables (table_document rows)
  = Tag "[document]" [Tag "html" [Tag "body"
      [NavigableString (table_text (Tag "table" (map row_node rows)))]]].
Proof. done. Qed.

Lemma join_head_part sep p ps : p ≠ [] → head (join sep (p :: ps)) = head p.
Proof. destruct p; [done|]. by destruct ps. Qed.

Lemma join_last_part sep ps q :
  last ps = Some q → q ≠ [] → last (join sep ps) = last q.
Proof.
  induction ps as [|p ps IH]; [done|]. destruct ps as [|p' ps].
  - by intros [= ->].
  - intros Hlast Hq. change (join sep (p :: p' :: ps)) with (p ++ sep ++ join sep (p' :: ps)).
    rewrite !last_app, (IH Hlast Hq).
    destruct (last q) eqn:Hq'; [done|]. by apply last_None in Hq'.
Qed.

Lemma strip_fixed_ends s c1 c2 :
  head s = Some c1 → last s = Some c2 → isspace c1 = false → isspace c2 = false →
  strip s = s.
Proof.
  intros Hhd Hlast H1 H2. rewrite strip_rstrip.
  assert (lstrip s = s) as ->.
  { apply lstrip_fixed. destruct s; [done|]. by injection Hhd as ->. }
  apply last_Some in Hlast as [s' ->]. by apply rstrip_snoc.
Qed.

Lemma strip_fixed_inv s :
  s ≠ [] → strip s = s →
  ∃ c1 c2, head s = Some c1 ∧ last s = Some c2
           ∧ isspace c1 = false ∧ isspace c2 = false.
Proof.
  intros Hne Heq. destruct (strip_fixed s Heq) as [Hl Hr].
  destruct (rstrip_fixed_last s Hne Hr) as (s' & c2 & Hs & Hc2).
  destruct s as [|c1 s]; [done|]. apply lstrip_fixed in Hl.
  exists c1, c2. split; [done|]. split; [|done].
  rewrite Hs. by rewrite last_snoc.
Qed.

(** Parts without white space at their ends, none of them empty, join to a
    text without white space at its ends. *)
Lemma join_trimmed sep ps :
  ps ≠ [] → Forall (λ p, p ≠ [] ∧ strip p = p) ps →
  join sep ps ≠ [] ∧ strip (join sep ps) = join sep ps.
Proof.
  intros Hne Hps. destruct ps as [|p ps]; [done|].
  pose proof (Forall_inv Hps) as [Hp Hstrip].
  destruct (strip_fixed_inv p Hp Hstrip) as (c1 & _ & Hhd & _ & Hc1 & _).
  destruct (last (p :: ps)) as [q|] eqn:Hlast; [|by apply last_None in Hlast].
  assert (Hq : q ≠ [] ∧ strip q = q).
  { rewrite Forall_forall in Hps. apply Hps.
    apply last_Some in Hlast as [l' ->]. set_solver. }
  destruct Hq as [Hq Hqs].
  destruct (strip_fixed_inv q Hq Hqs) as (_ & c2 & _ & Hlq & _ & Hc2).
  assert (Hhead : head (join sep (p :: ps)) = Some c1) by (by rewrite join_head_part).
  split; [by destruct (join sep (p :: ps))|].
  apply (strip_fixed_ends _ c1 c2); [done| |done..].
  by rewrite (join_last_part sep (p :: ps) q).
Qed.

Lemma join_Forall (P : ascii → Prop) sep ps :
  Forall P sep → Forall (Forall P) ps → Forall P (join sep ps).
Proof.
  intros Hsep Hps. induction Hps as [|p ps Hp Hps IH]; [constructor|].
  destruct ps as [|p' ps]; [done|].
  change (join sep (p :: p' :: ps)) with (p ++ sep ++ join sep (p' :: ps)).
  by rewrite !Forall_app.
Qed.

Lemma row_line (cells : list text) :
  cells ≠ [] → Forall cell_text cells →
  clean (join (txt " | ") cells) ∧ strip (join (txt " | ") cells) = join (txt " | ") cells.
Proof.
  intros Hne Hcells.
  destruct (join_trimmed (txt " | ") cells Hne) as [Hjoin Hstrip].
  { eapply Forall_impl; [done|]. by intros c [[? _] ?]. }
  split; [|done]. split; [done|].
  apply join_Forall; [by repeat constructor|].
  eapply Forall_impl; [done|]. by intros c [[_ ?] _].
Qed.

(** [re.sub] finds nothing to replace in a text without two line feeds in a
    row. *)
Lemma sub_newlines_go_id (m : nat) repl (run : nat) s :
  (2 ≤ m)%nat → (run ≤ 1)%nat → no_newline_run (replicate run LF ++ s) →
  sub_newlines_go m repl run s = replicate run LF ++ s.
Proof.
  intros Hm. revert run. induction s as [|c s IH]; intros run Hrun Hs; cbn [sub_newlines_go].
  - rewrite app_nil_r. unfold flush_run.
    destruct (Nat.leb_spec m run); [lia|done].
  - destruct (bool_decide_reflect (c = LF)) as [->|Hc].
    + destruct run as [|[|run]]; [|exfalso|lia].
      * by apply (IH 1%nat).
      * by apply (Hs 0%nat).
    + unfold flush_run. destruct (Nat.leb_spec m run); [lia|].
      f_equal. f_equal. apply (IH 0%nat); [lia|].
      destruct run as [|[|run]]; [| |lia].
      * by apply no_newline_run_cons in Hs as [_ ?].
      * apply no_newline_run_cons in Hs as [_ Hs].
        by apply no_newline_run_cons in Hs as [_ ?].
Qed.

Lemma sub_newlines_id (m : nat) repl s :
  (2 ≤ m)%nat → no_newline_run s → sub_newlines m repl s = s.
Proof. intros Hm Hs. apply (sub_newlines_go_id m repl 0); [done|lia|done]. Qed.

(** X23: a table of text cells becomes a line for each row, the cells joined
    with [" | "], by both [html_to_text]. *)
Theorem html_to_text_table (rows : list (list text)) :
  rows ≠ [] → Forall (λ cells, cells ≠ [] ∧ Forall cell_text cells) rows →
  HtmlToText.html_to_text_soup (table_document rows)
    = join [LF] (map (join (txt " | ")) rows)
  ∧ RagIndexText.html_to_text_soup (table_document rows)
    = join [LF] (map (join (txt " | ")) rows).
Proof.
  intros Hne Hrows.
  set (lines := map (join (txt " | ")) rows).
  assert (Hlines : Forall (λ l, clean l ∧ strip l = l) lines).
  { unfold lines. apply Forall_forall. intros l (cells & <- & Hin)%list_elem_of_In%in_map_iff.
    rewrite Forall_forall in Hrows.
    destruct (Hrows cells) as [Hc Hcells]; [by apply list_elem_of_In|].
    by apply row_line. }
  assert (Hclean : Forall clean lines)
    by (eapply Forall_impl; [exact Hlines|]; by intros l [? _]).
  assert (Hlne : lines ≠ []) by (unfold lines; by destruct rows).
  destruct (join_trimmed [LF] lines Hlne) as [Hjoin Hstrip].
  { eapply Forall_impl; [exact Hlines|]. by intros l [[? _] ?]. }
  assert (Htext : soup_text (table_document rows) = join [LF] lines).
  { unfold soup_text. rewrite table_document_decomposed, table_document_replaced.
    unfold get_text. cbn [strings flat_map app map]. unfold table_text.
    rewrite table_rows_table by done. fold lines.
    rewrite <- (app_nil_l (join [LF] lines ++ [LF])).
    rewrite (strip_pad [] [LF] (join [LF] lines)) by (done || apply space_LF || constructor).
    by destruct (join [LF] lines). }
  pose proof (join_clean_no_run lines Hclean) as Hrun.
  split.
  - unfold HtmlToText.html_to_text_soup. rewrite Htext. by apply sub_newlines_id.
  - unfold RagIndexText.html_to_text_soup. cbv zeta. rewrite Htext.
    rewrite sub_newlines_id by (done || lia).
    rewrite splitlines_join_clean by done. f_equal.
    clear -Hlines. induction Hlines as [|l lines [[Hl _] Hs] _ IH]; simpl; [done|].
    rewrite Hs. destruct l as [|a l]; [done|].
    cbn [nonempty map]. by rewrite Hs, IH.
Qed.

End TableFacts.

(** A table of two rows. *)
Lemma html_to_text_table_witness :
  HtmlToText.html_to_text_soup (table_document [[txt "a"; txt "b"]; [txt "c"]])
  = txt "a | b" ++ [LF] ++ txt "c".
Proof.
  assert (Ha : cell_text (txt "a")) by (repeat split; [discriminate|repeat constructor]).
  assert (Hb : cell_text (txt "b")) by (repeat split; [discriminate|repeat constructor]).
  assert (Hc : cell_text (txt "c")) by (repeat split; [discriminate|repeat constructor]).
  destruct (html_to_text_table [[txt "a"; txt "b"]; [txt "c"]]) as [Hrun _];
    [discriminate| |exact Hrun].
  repeat constructor; (discriminate || assumption).
Defined.

(** ** The API key and the last question *)

Section ServerFacts.
Import Server.
Local Open Scope string_scope.

(** X17: the check the routes depend on accepts a request exactly when no key
    is configured or the header carries the key; [ALLOW_EMPTY_API_KEY]
    belongs to the first definition only, which answers differently exactly
    when the flag is set, a key is configured and the header is missing or
    empty. *)
Theorem require_key_spec (API_KEY : string) (ALLOW_EMPTY_API_KEY : bool)
    (x_api_key : option string) :
  (require_key API_KEY x_api_key = inr () ↔ API_KEY = "" ∨ x_api_key = Some API_KEY)
  ∧ (require_key_first API_KEY ALLOW_EMPTY_API_KEY x_api_key = require_key API_KEY x_api_key
     ↔ ALLOW_EMPTY_API_KEY = false ∨ API_KEY = ""
       ∨ (x_api_key ≠ None ∧ x_api_key ≠ Some "")).
Proof.
  unfold require_key, require_key_first, or_else. split.
  - destruct (bool_decide_reflect (API_KEY = "")) as [->|Hkey]; cbn [negb andb].
    { split; [by left|done]. }
    destruct (bool_decide_reflect (x_api_key ≠ Some API_KEY)) as [Hx|Hx].
    + split; [done|]. by intros [?|?].
    + apply dec_stable in Hx. split; [by right|done].
  - destruct (bool_decide_reflect (API_KEY = "")) as [->|Hkey]; cbn [negb andb].
    { split; [by right; left|done]. }
    destruct x_api_key as [s|].
    + destruct (bool_decide_reflect (s = "")) as [->|Hs].
      * destruct ALLOW_EMPTY_API_KEY.
        -- rewrite (bool_decide_eq_false_2 (Some API_KEY ≠ Some API_KEY)) by (by intros ?).
           rewrite (bool_decide_eq_true_2 (Some "" ≠ Some API_KEY)) by congruence.
           split; [done|]. intros [?|[?|[_ ?]]]; done.
        -- rewrite (bool_decide_eq_true_2 (None ≠ Some API_KEY)) by done.
           rewrite (bool_decide_eq_true_2 (Some "" ≠ Some API_KEY)) by congruence.
           split; [by left|done].
      * split; [|done]. intros _. right; right. split; [done|congruence].
    + destruct ALLOW_EMPTY_API_KEY.
      * rewrite (bool_decide_eq_false_2 (Some API_KEY ≠ Some API_KEY)) by (by intros ?).
        rewrite (bool_decide_eq_true_2 (None ≠ Some API_KEY)) by done.
        split; [done|]. intros [?|[?|[? _]]]; done.
      * split; [by left|done].
Qed.

Lemma filter_none {A} (f : A → bool) (l : list A) :
  Forall (λ x, f x = false) l → List.filter f l = [].
Proof. induction 1 as [|x l Hx _ IH]; simpl; [done|]. by rewrite Hx. Qed.

(** X18: the question [/qa] searches for is the content of the last message
    of the user: the messages after it are not read. *)
Theorem last_user_msg_last (h1 h2 : list Message) (m : Message) :
  role m = "user" → Forall (λ m', role m' ≠ "user") h2 →
  last_user_msg (h1 ++ m :: h2) = content m.
Proof.
  intros Hm Hh2. unfold last_user_msg.
  rewrite rev_app_distr. simpl rev. rewrite <- app_assoc, List.filter_app.
  rewrite filter_none.
  - simpl. by rewrite bool_decide_eq_true_2.
  - apply (proj2 (Forall_forall _ _)). intros m' Hm'.
    apply bool_decide_eq_false. rewrite Forall_forall in Hh2. apply Hh2.
    by rewrite list_elem_of_In, in_rev, <- list_elem_of_In.
Qed.

End ServerFacts.

Lemma last_user_msg_last_witness :
  Server.last_user_msg
    ([] ++ {| Server.role := "user"; Server.content := txt "q" |}
        :: [{| Server.role := "assistant"; Server.content := txt "a" |}])
  = txt "q".
Proof.
  apply (last_user_msg_last [] [{| Server.role := "assistant"; Server.content := txt "a" |}]
           {| Server.role := "user"; Server.content := txt "q" |});
    [reflexivity|]. by repeat constructor.
Defined.

(** ** The text of a scanned form *)

Section OcrFacts.
Import Ocr.

(** X19: [max_chars] is a slice bound: [_extract_text_from_layout] returns
    the slice [[:max_chars]] of the full text whether or not the text is
    longer, so at most [max_chars] characters when [max_chars >= 0]. *)
Theorem extract_text_max_chars (result : Layout) (m : Z) :
  _extract_text_from_layout result (Some m)
    = slice_to (_extract_text_from_layout result None) m
  ∧ (0 ≤ m → len (_extract_text_from_layout result (Some m))
              = Z.min m (len (_extract_text_from_layout result None))).
Proof.
  unfold _extract_text_from_layout. cbv zeta.
  set (text := join [LF] _).
  assert (Hslice : (if m <? len text then slice_to text m else text) = slice_to text m).
  { destruct (Z.ltb_spec m (len text)) as [Hlt|Hge]; [done|].
    unfold slice_to, slice_bound. destruct (Z.ltb_spec m 0) as [?|?].
    { unfold len in *. lia. }
    rewrite Z.min_r by done. unfold len. by rewrite Nat2Z.id, firstn_all. }
  rewrite Hslice. split; [done|]. intros Hm.
  rewrite slice_to_nonneg by done. unfold len. rewrite length_take. lia.
Qed.

(** X20: [preview_ocr] returns [None] exactly when the OCR call did not
    return, and the first 1500 characters of the full text otherwise. *)
Theorem preview_ocr_spec `{!LayoutClient} (file_path : string) :
  (preview_ocr file_path = None ↔ ∀ r, _get_layout_result file_path ≠ Returns r)
  ∧ ∀ t, preview_ocr file_path = Some t →
      len t ≤ 1500
      ∧ ∃ r, _get_layout_result file_path = Returns r
          ∧ t = take 1500 (_extract_text_from_layout r None).
Proof.
  unfold preview_ocr. destruct (_get_layout_result file_path) as [r| |].
  - split; [split; [done|intros Hr; by destruct (Hr r)]|].
    intros t Ht.
    assert (t = _extract_text_from_layout r (Some 1500)) as -> by congruence.
    destruct (extract_text_max_chars r 1500) as [Heq Hlen].
    split; [rewrite Hlen by done; lia|]. exists r. split; [done|].
    rewrite Heq. by rewrite slice_to_nonneg.
  - split; [by split|done].
  - split; [by split|done].
Qed.

End OcrFacts.

(** ** The validator on other values *)

Section ValidatorMore.
Import Validator Fences App.
Context `{!Repr}.
Local Open Scope string_scope.
Local Open Scope list_scope.

Lemma required_paths_NoDup : NoDup (deep_keys REQUIRED_SCHEMA "").
Proof. apply (bool_decide_unpack _). by vm_compute. Qed.

Lemma missing_everything :
  sorted_difference required_paths ∅ ≡ₚ deep_keys REQUIRED_SCHEMA "".
Proof.
  unfold sorted_difference, sorted. rewrite stable_sort_perm, difference_empty_L.
  unfold required_paths. apply elements_list_to_set, required_paths_NoDup.
Qed.

Lemma got_paths_other (payload : json) :
  (∀ d, payload ≠ JDict d) → got_paths payload = ∅.
Proof.
  intros Hnd. destruct payload as [| | | | | |d]; [reflexivity..|]. by destruct (Hnd d).
Qed.

Lemma validate_schema_other_nonempty (payload : json) :
  (∀ d, payload ≠ JDict d) → validate_schema payload ≠ [].
Proof.
  intros Hnd. unfold validate_schema. rewrite (got_paths_other payload Hnd).
  intros [Hmissing _]%app_nil. apply paths_issue_nil in Hmissing.
  pose proof missing_everything as Hp. rewrite Hmissing in Hp.
  apply Permutation_nil in Hp. discriminate Hp.
Qed.

(** X21: a payload that is not a dict gets one issue, the missing paths, and
    these are all the paths of the required schema. *)
Theorem validate_schema_not_dict (payload : json) :
  (∀ d, payload ≠ JDict d) →
  ∃ missing,
    validate_schema payload
      = ["Missing keys/paths" +:+ ": " +:+ repr (JList (JStr <$> missing))]
    ∧ missing ≡ₚ deep_keys REQUIRED_SCHEMA "".
Proof.
  intros Hnd. unfold validate_schema. rewrite (got_paths_other payload Hnd).
  assert (Hfmt : match payload with JDict d => format_issues d | _ => [] end = []).
  { destruct payload as [| | | | | |d]; [reflexivity..|]. by destruct (Hnd d). }
  rewrite Hfmt.
  assert (sorted_difference ∅ required_paths = []) as ->
    by apply sorted_difference_nil, empty_subseteq.
  exists (sorted_difference required_paths ∅). split; [|apply missing_everything].
  pose proof missing_everything as Hp.
  destruct (sorted_difference required_paths ∅) as [|p ps].
  - apply Permutation_nil in Hp. discriminate Hp.
  - reflexivity.
Qed.

(** X22: the validation tab reports a match only for an output that parses,
    once cleaned, to a JSON object on which [validate_schema] finds nothing. *)
Theorem validation_tab_matches `{!JsonLoads json} (raw : text) :
  validation_tab raw = Matches →
  ∃ d, loads (cleaned raw) = Returns (JDict d) ∧ validate_schema (JDict d) = [].
Proof.
  unfold validation_tab. destruct (loads (cleaned raw)) as [v| |]; [|done..].
  assert (Hcase : (∃ d, v = JDict d) ∨ ∀ d, v ≠ JDict d).
  { destruct v as [| | | | | |d]; [right; discriminate..|left; by exists d]. }
  destruct Hcase as [[d ->]|Hnd].
  - intros Hm. exists d. split; [reflexivity|].
    destruct (validate_schema (JDict d)); [reflexivity|discriminate Hm].
  - pose proof (validate_schema_other_nonempty v Hnd) as Hv.
    destruct (validate_schema v); [done|]. destruct v; discriminate.
Qed.

End ValidatorMore.

Lemma validate_schema_not_dict_witness :
  ∃ missing,
    @Validator.validate_schema Validator.no_repr (Validator.JList [])
      = [("Missing keys/paths" +:+ ": "
          +:+ @Validator.repr Validator.no_repr
                (Validator.JList (Validator.JStr <$> missing)))%string].
Proof.
  destruct (@validate_schema_not_dict Validator.no_repr (Validator.JList []))
    as (missing & Hv & _); [discriminate|].
  exists missing. exact Hv.
Defined.

(** A parser that reads every text as the empty object. *)
Lemma validation_tab_matches_witness :
  @App.validation_tab Validator.no_repr
    {| Fences.loads := λ _, Returns (Validator.payload_with (Validator.JStr "") Validator.date_fields) |}
    (txt "{}") = App.Matches
  ∧ ∃ d, Returns (Validator.payload_with (Validator.JStr "") Validator.date_fields)
         = Returns (Validator.JDict d).
Proof.
  assert (Hm : @App.validation_tab Validator.no_repr
                 {| Fences.loads := λ _, Returns (Validator.payload_with (Validator.JStr "") Validator.date_fields) |}
                 (txt "{}") = App.Matches) by (by vm_compute).
  split; [exact Hm|].
  destruct (@validation_tab_matches Validator.no_repr
              {| Fences.loads := λ _, Returns (Validator.payload_with (Validator.JStr "") Validator.date_fields) |}
              (txt "{}") Hm) as (d & Hd & _).
  exists d. exact Hd.
Defined.
